(** * Templay: the Spotify search demo and the cadence estimator

    A shallow embedding of the two Go entry points of the repository,
    [src/cmd/web/main.go] and [src/unnamed/part_000], and the proofs of
    the properties stated about them.

    - Go strings are byte strings: [string].
    - Go [int] is modelled by [Z] (none of the integers of the program
      can leave the 64-bit range: they are list positions, string
      lengths and decoded JSON numbers).
    - Go [float64] is Rocq's primitive [float]: IEEE 754 binary64 with
      round-to-nearest-even, every operation rounded on its own.
    - A Go [error] is identified with its message.
    - Standard output and the network are an explicit world threaded
      through a state monad; what the Go standard library and the remote
      servers answer is a parameter ([Runtime]). *)

From Stdlib Require Import ZArith Lia List String Ascii Bool DecimalString DecimalPos.
From Stdlib Require Import Reals Lra Floats.
Import ListNotations.

Set Warnings "-inexact-float".

Local Open Scope string_scope.
Local Open Scope Z_scope.

(** ** The part of the Go runtime the program uses *)

Module Go.

(** [error]: an error value is its message, [nil] is [None]. *)
Definition error := string.

(** A library call returning [(value, err)]. *)
Inductive result (A : Type) : Type :=
| Ok (a : A)
| Err (e : error).
Arguments Ok {A} a.
Arguments Err {A} e.

(** [*http.Request] and [*http.Response], with the fields the program
    touches. [Body] is the text that reading the response body yields. *)
Record Request := {
  Method : string;
  URL : string;
  ReqBody : string;
  Header : list (string * string)
}.

Record Response := {
  StatusCode : Z;
  Status : string;
  Body : string
}.

(** [req.Header.Set(key, value)] *)
Definition Header_Set (key value : string) (req : Request) : Request :=
  {| Method := Method req;
     URL := URL req;
     ReqBody := ReqBody req;
     Header := (key, value)
                 :: filter (fun kv => negb (String.eqb (fst kv) key)) (Header req) |}.

(** What lies outside the repository: the Go standard library
    functions whose results the program only passes on, and the remote
    servers. The deadline of the shared [context] shows up here as a
    transport error. *)
Class Runtime := {
  (** [base64.StdEncoding.EncodeToString] *)
  base64_StdEncoding : string -> string;
  (** [url.Values.Encode] of the pairs set on an empty [url.Values] *)
  url_Encode : list (string * string) -> string;
  (** the error, if any, of parsing the URL in [http.NewRequestWithContext] *)
  url_Parse_error : string -> option error;
  (** [http.DefaultClient.Do] *)
  transport : Request -> result Response;
  (** [strconv.FormatFloat(f, fmt, prec, 64)] *)
  FormatFloat : float -> ascii -> Z -> string
}.

(** The world: the process environment, what was written to standard
    output (one entry per call of [fmt.Println] or [fmt.Printf]) and
    the requests handed to the HTTP client, oldest first. *)
Record World := {
  env : string -> string;
  stdout : list string;
  wire : list Request
}.

Definition IO (A : Type) : Type := World -> A * World.

Definition ret {A} (a : A) : IO A := fun w => (a, w).

Definition bind {A B} (c : IO A) (k : A -> IO B) : IO B :=
  fun w => let (a, w') := c w in k a w'.

(** [os.Getenv] *)
Definition Getenv (key : string) : IO string :=
  fun w => (env w key, w).

Definition write (s : string) : IO unit :=
  fun w => (tt, {| env := env w; stdout := stdout w ++ [s]; wire := wire w |}).

(** [http.DefaultClient.Do(req)] *)
Definition Do `{Runtime} (req : Request) : IO (result Response) :=
  fun w => (transport req,
            {| env := env w; stdout := stdout w; wire := wire w ++ [req] |}).

(** [http.NewRequestWithContext(ctx, method, url, body)] for the two
    constant methods the program passes. *)
Definition NewRequestWithContext `{Runtime} (method url body : string)
  : result Request :=
  match url_Parse_error url with
  | Some e => Err e
  | None => Ok {| Method := method; URL := url; ReqBody := body; Header := [] |}
  end.

(** *** [fmt] *)

(** An operand of [fmt.Printf]. *)
Inductive arg :=
| AInt (z : Z)
| AStr (s : string)
| AFloat (f : float).

(** [strconv.Itoa] *)
Definition Itoa (z : Z) : string := NilZero.string_of_int (Z.to_int z).

Fixpoint spaces (n : nat) : string :=
  match n with
  | O => ""
  | S n' => String " " (spaces n')
  end.

(** Right-justify in a field of [width] (padding with spaces on the
    left). The program uses a width with [%d] only, where bytes and
    characters coincide. *)
Definition pad (width : option nat) (s : string) : string :=
  match width with
  | None => s
  | Some w => spaces (w - String.length s) ++ s
  end.

Definition type_name (a : arg) : string :=
  match a with
  | AInt _ => "int"
  | AStr _ => "string"
  | AFloat _ => "float64"
  end.

Definition format_v `{Runtime} (a : arg) : string :=
  match a with
  | AInt z => Itoa z
  | AStr s => s
  | AFloat f => FormatFloat f "g" (-1)
  end.

(** One verb applied to one operand. The program uses [%d] on
    integers, [%s] on strings and [%.Nf] on floats; any other pairing
    prints Go's bad-verb marker. *)
Definition format_verb `{Runtime} (c : ascii) (width prec : option nat) (a : arg)
  : string :=
  match a with
  | AInt z =>
      if Ascii.eqb c "d" then pad width (Itoa z)
      else "%!" ++ String c ("(" ++ type_name a ++ "=" ++ format_v a ++ ")")
  | AStr s =>
      if Ascii.eqb c "s" then pad width s
      else "%!" ++ String c ("(" ++ type_name a ++ "=" ++ format_v a ++ ")")
  | AFloat f =>
      if Ascii.eqb c "f"
      then pad width (FormatFloat f "f"
                        (match prec with Some p => Z.of_nat p | None => 6 end))
      else "%!" ++ String c ("(" ++ type_name a ++ "=" ++ format_v a ++ ")")
  end.

(** The value of a decimal digit: the bytes 48 to 57. *)
Definition digit_of (c : ascii) : option nat :=
  let n := nat_of_ascii c in
  if (48 <=? n)%nat && (n <=? 57)%nat then Some (n - 48)%nat else None.

(** The scanner of a format string is either copying text or inside a
    verb, after its [%], with the width and precision read so far. *)
Inductive scan :=
| Lit
| Verb (width prec : option nat) (dot : bool).

Definition more (o : option nat) (d : nat) : option nat :=
  Some (10 * match o with Some n => n | None => 0 end + d)%nat.

Fixpoint Sprintf_from `{Runtime} (st : scan) (format : string) (args : list arg)
  : string :=
  match format with
  | EmptyString =>
      match st with
      | Lit => ""
      | Verb _ _ _ => "%!(NOVERB)"
      end
  | String c rest =>
      match st with
      | Lit =>
          if Ascii.eqb c "%" then Sprintf_from (Verb None None false) rest args
          else String c (Sprintf_from Lit rest args)
      | Verb w p dot =>
          match digit_of c with
          | Some d =>
              if dot then Sprintf_from (Verb w (more p d) true) rest args
              else Sprintf_from (Verb (more w d) p false) rest args
          | None =>
              if Ascii.eqb c "." then Sprintf_from (Verb w (Some 0%nat) true) rest args
              else if Ascii.eqb c "%" then String "%" (Sprintf_from Lit rest args)
              else
                match args with
                | [] => "%!" ++ String c ("(MISSING)" ++ Sprintf_from Lit rest [])
                | a :: args' => format_verb c w p a ++ Sprintf_from Lit rest args'
                end
          end
      end
  end.

(** [fmt.Sprintf]; operands left over are not reported. *)
Definition Sprintf `{Runtime} (format : string) (args : list arg) : string :=
  Sprintf_from Lit format args.

(** [fmt.Printf] *)
Definition Printf `{Runtime} (format : string) (args : list arg) : IO unit :=
  write (Sprintf format args).

(** [fmt.Errorf] *)
Definition Errorf `{Runtime} (format : string) (args : list arg) : error :=
  Sprintf format args.

(** [fmt.Println] of operands already rendered: separated by spaces,
    ended by a newline. *)
Definition Println (operands : list string) : IO unit :=
  write (String.concat " " operands ++ String (ascii_of_nat 10) "").

(** [len(s)] *)
Definition len (s : string) : Z := Z.of_nat (String.length s).

End Go.

Import Go.

Declare Scope io_scope.
Delimit Scope io_scope with io.
Notation "x <- c ;; k" := (bind c (fun x => k))
  (at level 61, c at next level, right associativity) : io_scope.
Notation "c ;; k" := (bind c (fun _ => k))
  (at level 61, right associativity) : io_scope.

Local Open Scope io_scope.

(** ** The program: [package main] *)

(** The newline the Go sources write as [\n]. *)
Definition nl : string := String (ascii_of_nat 10) "".

Definition MethodGet : string := "GET".
Definition MethodPost : string := "POST".
Definition StatusOK : Z := 200.

(** The anonymous [payload] struct of [getAccessToken]. *)
Record payload := {
  AccessToken : string;
  ExpiresIn : Z;
  TokenType : string
}.

(** The types local to [callSpotifySearchParsed]. *)
Record artist := { artist_Name : string }.
Record track := { track_Name : string; Artists : list artist }.
Record tracksPage := { Items : list track }.
Record searchResp := { Tracks : tracksPage }.

(** [json.NewDecoder(body).Decode(&v)] at the two types it is used at:
    the decoded value, or the error. *)
Class JSON := {
  Decode_payload : string -> result payload;
  Decode_searchResp : string -> result searchResp
}.

Section Program.

Context `{Runtime} `{JSON}.

(** [getAccessToken], the same text in both source files
    ([cmd/web/main.go] lines 45-82, [part_000] lines 42-79). The
    results are [(token, expiresIn, err)]. *)
Definition getAccessToken (clientID clientSecret : string)
  : IO (string * Z * option error) :=
  let basic := base64_StdEncoding (clientID ++ ":" ++ clientSecret) in
  let form := [("grant_type", "client_credentials")] in
  match NewRequestWithContext MethodPost "https://accounts.spotify.com/api/token"
          (url_Encode form) with
  | Err err => ret ("", 0, Some err)
  | Ok req =>
      let req := Header_Set "Content-Type" "application/x-www-form-urlencoded" req in
      let req := Header_Set "Authorization" ("Basic " ++ basic) req in
      r <- Do req ;;
      match r with
      | Err err => ret ("", 0, Some err)
      | Ok resp =>
          if negb (StatusCode resp =? StatusOK) then
            ret ("", 0,
                 Some (Errorf "status %s: %s" [AStr (Status resp); AStr (Body resp)]))
          else
            match Decode_payload (Body resp) with
            | Err err => ret ("", 0, Some err)
            | Ok p => ret (AccessToken p, ExpiresIn p, None)
            end
      end
  end.

(** The body of [for i, t := range out.Tracks.Items], from index [i] on.
    [artist] is the first artist's name when [len(t.Artists) > 0] and
    stays ["Unknown"] otherwise. *)
Fixpoint rangeItems (i : nat) (items : list track) : IO unit :=
  match items with
  | [] => ret tt
  | t :: rest =>
      let artist :=
        match Artists t with
        | a :: _ => artist_Name a
        | [] => "Unknown"
        end in
      Printf ("%2d) %s — %s" ++ nl)
        [AInt (Z.of_nat i + 1); AStr artist; AStr (track_Name t)] ;;
      rangeItems (S i) rest
  end.

(** [callSpotifySearchParsed], the same text in both source files
    ([cmd/web/main.go] lines 85-143, [part_000] lines 82-139). The
    result is [err]. *)
Definition callSpotifySearchParsed (token term : string) (limit : Z)
  : IO (option error) :=
  let baseURL := "https://api.spotify.com/v1/search" in
  let q := [("q", term); ("type", "track"); ("limit", Sprintf "%d" [AInt limit])] in
  match NewRequestWithContext MethodGet (baseURL ++ "?" ++ url_Encode q) "" with
  | Err err => ret (Some err)
  | Ok req =>
      let req := Header_Set "Authorization" ("Bearer " ++ token) req in
      r <- Do req ;;
      match r with
      | Err err => ret (Some err)
      | Ok resp =>
          if negb (Z.quot (StatusCode resp) 100 =? 2) then
            ret (Some (Errorf "search failed: %s: %s"
                         [AStr (Status resp); AStr (Body resp)]))
          else
            match Decode_searchResp (Body resp) with
            | Err err => ret (Some err)
            | Ok out =>
                match Items (Tracks out) with
                | [] => Println ["No tracks found."] ;; ret None
                | items => rangeItems 0 items ;; ret None
                end
            end
      end
  end.

Local Open Scope float_scope.

(** [BPMEstimateSimple] ([cmd/web/main.go] lines 146-167); the results
    are [(bpm, L)]. *)
Definition BPMEstimateSimple (height speed : float) : float * float :=
  let L := 0.414 * height in
  let L :=
    if 2.2 <? speed then
      let scale := 1.0 + 0.25 * ((speed - 2.2) / 1.8) in
      let scale := if 1.25 <? scale then 1.25 else scale in
      L * scale
    else L in
  let maxL := 0.55 * height in
  let L := if maxL <? L then maxL else L in
  let bpm := (speed / L) * 60.0 in
  (bpm, L).

Local Close Scope float_scope.

End Program.

(** [src/cmd/web/main.go], lines 15-43. *)
Module CmdWeb.
Section Main.
Context `{Runtime} `{JSON}.

Definition main : IO unit :=
  client_id <- Getenv "SPOTIFY_CLIENT_ID" ;;
  client_secret <- Getenv "SPOTIFY_CLIENT_SECRET" ;;
  if String.eqb client_id "" || String.eqb client_secret "" then
    Println ["Missing SPOTIFY_CLIENT_ID or SPOTIFY_CLIENT_SECRET in env"]
  else
    r <- getAccessToken client_id client_secret ;;
    match r with
    | (_, _, Some err) => Println ["Token fetch failed:"; err]
    | (token, expiresIn, None) =>
        Printf ("token length: %d" ++ nl) [AInt (len token)] ;;
        Printf ("expires_in (sec): %d" ++ nl) [AInt expiresIn] ;;
        err <- callSpotifySearchParsed token "Daft Punk" 5 ;;
        match err with
        | Some e => Println ["API call failed:"; e]
        | None => ret tt
        end ;;
        let '(bpm, stepLen) := BPMEstimateSimple 1.75%float 2.68224%float in
        Printf ("Estimated cadence: %.0f spm (step length: %.2f m)" ++ nl)
          [AFloat bpm; AFloat stepLen]
    end.
End Main.
End CmdWeb.

(** [src/unnamed/part_000], lines 15-40: the same entry point without
    the cadence estimate. *)
Module Part000.
Section Main.
Context `{Runtime} `{JSON}.

Definition main : IO unit :=
  client_id <- Getenv "SPOTIFY_CLIENT_ID" ;;
  client_secret <- Getenv "SPOTIFY_CLIENT_SECRET" ;;
  if String.eqb client_id "" || String.eqb client_secret "" then
    Println ["Missing SPOTIFY_CLIENT_ID or SPOTIFY_CLIENT_SECRET in env"]
  else
    r <- getAccessToken client_id client_secret ;;
    match r with
    | (_, _, Some err) => Println ["Token fetch failed:"; err]
    | (token, expiresIn, None) =>
        Printf ("token length: %d" ++ nl) [AInt (len token)] ;;
        Printf ("expires_in (sec): %d" ++ nl) [AInt expiresIn] ;;
        err <- callSpotifySearchParsed token "Daft Punk" 5 ;;
        match err with
        | Some e => Println ["API call failed:"; e]
        | None => ret tt
        end
    end.
End Main.
End Part000.

(** ** Notions the statements use *)

(** Running [c] in the world [w] hands exactly one request, [req], to the
    HTTP client, and the answer to it is [resp]. *)
Definition Answered `{Runtime} {A} (c : IO A) (w : World) (req : Request)
    (resp : Response) : Prop :=
  wire (snd (c w)) = (wire w ++ [req])%list /\ transport req = Ok resp.

(** Running [c] in the world [w] hands exactly one request, [req], to the
    HTTP client, which fails on it with the error [e] (no connection, the
    deadline of the context, ...). *)
Definition Failed `{Runtime} {A} (c : IO A) (w : World) (req : Request)
    (e : error) : Prop :=
  wire (snd (c w)) = (wire w ++ [req])%list /\ transport req = Err e.

(** [sub] occurs in [s]. *)
Definition Contains (sub s : string) : Prop :=
  exists before after, s = before ++ sub ++ after.

(** The world [w] after [lines] more writes to standard output. *)
Definition printed (w : World) (lines : list string) : World :=
  {| env := env w; stdout := stdout w ++ lines; wire := wire w |}.

(** The world [w] after the request [req] went out. *)
Definition sent (w : World) (req : Request) : World :=
  {| env := env w; stdout := stdout w; wire := wire w ++ [req] |}.

(** The request [getAccessToken] builds, lines 46-57. *)
Definition token_request `{Runtime} (clientID clientSecret : string) : Request :=
  Header_Set "Authorization" ("Basic " ++ base64_StdEncoding (clientID ++ ":" ++ clientSecret))
    (Header_Set "Content-Type" "application/x-www-form-urlencoded"
       {| Method := MethodPost;
          URL := "https://accounts.spotify.com/api/token";
          ReqBody := url_Encode [("grant_type", "client_credentials")];
          Header := [] |}).

(** The request [callSpotifySearchParsed] builds, lines 101-111. *)
Definition search_request `{Runtime} (token term : string) (limit : Z) : Request :=
  Header_Set "Authorization" ("Bearer " ++ token)
    {| Method := MethodGet;
       URL := "https://api.spotify.com/v1/search" ++ "?"
              ++ url_Encode [("q", term); ("type", "track");
                             ("limit", Sprintf "%d" [AInt limit])];
       ReqBody := "";
       Header := [] |}.

(** The rank of a track line as [%2d] prints it. *)
Definition rank_field (rank : Z) : string := pad (Some 2%nat) (Itoa rank).

(** The scale factor of [BPMEstimateSimple], lines 151-154, as a function
    of the speed. *)
Definition stride_scale (speed : float) : float :=
  let scale := (1.0 + 0.25 * ((speed - 2.2) / 1.8))%float in
  if (1.25 <? scale)%float then 1.25%float else scale.

(** [x] is within [tol] of [v]. *)
Definition approx (x v tol : float) : bool :=
  ((v - tol <=? x) && (x <=? v + tol))%float.

(** Runtimes for the examples: every URL parses, the token endpoint
    (the POST) answers [token_answer] and the search endpoint (the GET)
    answers [search_answer]. *)
Definition demo_runtime (token_answer search_answer : result Response) : Runtime :=
  {| base64_StdEncoding := fun s => s;
     url_Encode := fun kvs => String.concat "&" (map (fun kv => fst kv ++ "=" ++ snd kv) kvs);
     url_Parse_error := fun _ => None;
     transport := fun req =>
       if String.eqb (Method req) MethodPost then token_answer else search_answer;
     FormatFloat := fun _ _ _ => "" |}.

Definition demo_json (p : result payload) (r : result searchResp) : JSON :=
  {| Decode_payload := fun _ => p; Decode_searchResp := fun _ => r |}.

Definition answer_200 (body : string) : result Response :=
  Ok {| StatusCode := 200; Status := "200 OK"; Body := body |}.

Definition answer_401 : result Response :=
  Ok {| StatusCode := 401; Status := "401 Unauthorized"; Body := "invalid_client" |}.

Definition demo_payload : payload :=
  {| AccessToken := "BQDtoken"; ExpiresIn := 3600; TokenType := "Bearer" |}.

Definition found (items : list track) : searchResp :=
  {| Tracks := {| Items := items |} |}.

Definition one_more_time : track :=
  {| track_Name := "One More Time"; Artists := [ {| artist_Name := "Daft Punk" |} ] |}.

Definition untitled : track :=
  {| track_Name := "Untitled"; Artists := [] |}.

Definition demo_world (id secret : string) : World :=
  {| env := fun key =>
       if String.eqb key "SPOTIFY_CLIENT_ID" then id
       else if String.eqb key "SPOTIFY_CLIENT_SECRET" then secret
       else "";
     stdout := [];
     wire := [] |}.

(** The last line [cmd/web/main.go] prints: the estimate for 1.75 m and
    2.68224 m/s, the cadence with no decimals and the stride with two. *)
Definition cadence_line `{Runtime} : string :=
  "Estimated cadence: " ++ FormatFloat 208.18772578494836%float "f" 0
  ++ " spm (step length: " ++ FormatFloat 0.77302539999999997%float "f" 2
  ++ " m)" ++ nl.

(** The part of [main] that both entry points share, after the
    credentials were found: the token exchange, the two lines about the
    token and the search. *)
Definition after_credentials `{Runtime} `{JSON} (id secret : string) (w : World)
  : bool * World :=
  let '((token, expiresIn, err), w1) := getAccessToken id secret w in
  match err with
  | Some e => (false, printed w1 ["Token fetch failed: " ++ e ++ nl])
  | None =>
      let w2 := printed w1 ["token length: " ++ Itoa (len token) ++ nl;
                            "expires_in (sec): " ++ Itoa expiresIn ++ nl] in
      let '(serr, w3) := callSpotifySearchParsed token "Daft Punk" 5 w2 in
      match serr with
      | Some e => (true, printed w3 ["API call failed: " ++ e ++ nl])
      | None => (true, w3)
      end
  end.

Module Spec.

(** The track line as the specification words it:
    ["<rank>) <artist> — <track>"]. *)
Definition track_line (rank : Z) (artist track : string) : string :=
  Itoa rank ++ ") " ++ artist ++ " — " ++ track.

End Spec.

(** ** The cadence estimate over the reals

    [BPMEstimateSimple] computes on binary64 numbers. Its statements
    compare floats with the comparisons of the code ([<?], [<=?]); their
    proofs read a float as the real number it stands for and an
    operation as the rounding of the exact result. The definitions below
    are that reading, over the specification [spec_float] of the
    primitive floats ([Prim2SF]); 53 is the precision, -1074 the least
    exponent and 971 the greatest one of binary64. *)

Section Binary64.

Local Open Scope R_scope.

(** [BPMEstimateSimple] without its lines 158-162, the clamp. *)
Definition BPMEstimateUnclamped (height speed : float) : float * float :=
  (let L := 0.414 * height in
   let L :=
     if 2.2 <? speed then
       let scale := 1.0 + 0.25 * ((speed - 2.2) / 1.8) in
       let scale := if 1.25 <? scale then 1.25 else scale in
       L * scale
     else L in
   let bpm := (speed / L) * 60.0 in
   (bpm, L))%float.

(** The scale factor before its cap, line 151. *)
Definition scale_raw (speed : float) : float :=
  (1.0 + 0.25 * ((speed - 2.2) / 1.8))%float.

(** The stride before the clamp, lines 147-156. *)
Definition stride_pre (h s : float) : float :=
  (if 2.2 <? s then 0.414 * h * stride_scale s else 0.414 * h)%float.

(** The power of two [2 ^ e]. *)
Definition bpow (e : Z) : R := powerRZ 2 e.

(** The real [y] lies at the location [l] of the unit interval that
    starts at the integer [m]: on [m], below, on or above the midpoint. *)
Definition inb (y : R) (m : Z) (l : location) : Prop :=
  match l with
  | loc_Exact => y = IZR m
  | loc_Inexact Lt => IZR m < y < IZR m + / 2
  | loc_Inexact Eq => y = IZR m + / 2
  | loc_Inexact Gt => IZR m + / 2 < y < IZR m + 1
  end.

(** The same for a shift record, whose two bits encode the location. *)
Definition inb_rec (y : R) (r : shr_record) : Prop :=
  (0 <= shr_m r)%Z /\ inb y (shr_m r) (loc_of_shr_record r).

(** [r] is [y] rounded to the nearest integer, ties to even. *)
Definition nearest (y : R) (r : Z) : Prop :=
  exists m l, (0 <= m)%Z /\ inb y m l /\ r = round_nearest_even m l.

(** [E] is the exponent binary64 gives the last place of [x]: [x] is
    below [2 ^ (53 + E)], and not below [2 ^ (52 + E)] unless [E] is the
    least exponent. *)
Definition format_exp (x : R) (E : Z) : Prop :=
  (-1074 <= E)%Z /\ x < bpow (53 + E) /\ (E = (-1074)%Z \/ bpow (52 + E) <= x).

(** The float of mantissa [r], between 0 and [2 ^ 53], at exponent [E]. *)
Definition canon (r E : Z) : spec_float :=
  match r with
  | Zpos p =>
      if (r <? 2 ^ 53)%Z
      then if (E <=? 971)%Z then S754_finite false p E else S754_infinity false
      else if (E + 1 <=? 971)%Z then S754_finite false (2 ^ 52) (E + 1)
           else S754_infinity false
  | _ => S754_zero false
  end.

(** The real a float stands for; an infinity stands for [2 ^ 1024],
    the first power of two binary64 cannot hold. *)
Definition SF2R (o : spec_float) : R :=
  match o with
  | S754_zero _ => 0
  | S754_finite s m e => (if s then -1 else 1) * (IZR (Zpos m) * bpow e)
  | S754_infinity s => (if s then -1 else 1) * bpow 1024
  | S754_nan => 0
  end.

(** A well-formed float that is a zero, a positive number or [+Inf]. *)
Definition nonneg_sf (o : spec_float) : Prop :=
  valid_binary o = true
  /\ match o with
     | S754_zero _ | S754_finite false _ _ | S754_infinity false => True
     | _ => False
     end.

Definition finite_sf (o : spec_float) : Prop :=
  match o with
  | S754_zero _ | S754_finite _ _ _ => True
  | _ => False
  end.

(** [o] is neither negative nor the negative zero. *)
Definition sign_plus_sf (o : spec_float) : Prop :=
  match o with
  | S754_zero false | S754_finite false _ _ | S754_infinity false => True
  | _ => False
  end.

(** [o] is the binary64 rounding of the real [x >= 0]: the nearest
    multiple of the last place of [x], or [+Inf] from [2 ^ 1024] on. *)
Definition Rounds (x : R) (o : spec_float) : Prop :=
  0 <= x /\ nonneg_sf o
  /\ exists E r, format_exp x E /\ nearest (x * bpow (- E)) r
                 /\ SF2R o = Rmin (IZR r * bpow E) (bpow 1024).

(** The same notions on primitive floats. *)
Definition F2R (f : float) : R := SF2R (Prim2SF f).
Definition nonnegative (f : float) : Prop := nonneg_sf (Prim2SF f).
Definition finite (f : float) : Prop := finite_sf (Prim2SF f).
Definition is_inf (f : float) : Prop := Prim2SF f = S754_infinity false.
Definition sign_plus (f : float) : Prop := nonnegative f /\ sign_plus_sf (Prim2SF f).

(** The positive float of mantissa [m] at the least exponent: a multiple
    of the smallest positive binary64 number. *)
Definition tiny (m : positive) : float := SF2Prim (S754_finite false m (-1074)).

(** At the height [tiny m] the longest stride, at the scale 1.25, does
    not exceed the cap. *)
Definition tiny_ok (m : positive) : bool :=
  negb (0.55 * tiny m <? (0.414 * tiny m) * 1.25)%float.

End Binary64.

(** * Proofs *)

(** ** The search client and the token exchange *)

Section IOFacts.

Context `{Runtime} `{JSON}.

Lemma app_one_inv {A} (l : list A) (x y : A) : (l ++ [x] = l ++ [y])%list -> x = y.
Proof. intros E. apply app_inv_head in E. congruence. Qed.

Lemma app_one_neq {A} (l : list A) (x : A) : l <> (l ++ [x])%list.
Proof.
  intros E. apply (f_equal (@List.length A)) in E.
  rewrite length_app in E. simpl in E. lia.
Qed.

(** The format of a track line, verb by verb. *)
Lemma Sprintf_track_line (i : Z) (a t : string) :
  Sprintf ("%2d) %s — %s" ++ nl) [AInt i; AStr a; AStr t]
  = rank_field i ++ ") " ++ a ++ " — " ++ t ++ nl.
Proof. reflexivity. Qed.

Lemma append_empty_r (s : string) : s ++ "" = s.
Proof. induction s; simpl; congruence. Qed.

Lemma Errorf_status (st body : string) :
  Errorf "status %s: %s" [AStr st; AStr body] = "status " ++ st ++ ": " ++ body.
Proof.
  change (Errorf "status %s: %s" [AStr st; AStr body])
    with ("status " ++ st ++ ": " ++ body ++ "").
  now rewrite append_empty_r.
Qed.

(** The loop writes its lines after what was there and touches nothing else. *)
Lemma rangeItems_run (items : list track) :
  forall (i : nat) (w : World),
    exists out,
      rangeItems i items w = (tt, printed w out)
      /\ List.length out = List.length items
      /\ forall (n : nat) (t : track),
           nth_error items n = Some t ->
           nth_error out n
           = Some (rank_field (Z.of_nat (i + n) + 1) ++ ") "
                   ++ match Artists t with
                      | a :: _ => artist_Name a
                      | [] => "Unknown"
                      end
                   ++ " — " ++ track_Name t ++ nl).
Proof.
  induction items as [|t rest IH]; intros i w.
  - exists []. simpl. unfold ret, printed. rewrite app_nil_r.
    destruct w; repeat split; auto.
    intros [|n] t E; discriminate.
  - cbn [rangeItems]. unfold bind at 1. unfold Printf, write.
    rewrite Sprintf_track_line.
    match goal with |- context [rangeItems (S i) rest ?W] =>
      destruct (IH (S i) W) as (out & E & Hl & Hn); rewrite E end.
    eexists (_ :: out). split; [|split].
    + unfold printed; cbn [env stdout wire]. rewrite <- app_assoc. reflexivity.
    + simpl. congruence.
    + intros [|n] t' Hnth; cbn [nth_error] in *.
      * injection Hnth as <-. rewrite Nat.add_0_r. reflexivity.
      * rewrite (Hn n t' Hnth). do 3 f_equal. lia.
Qed.

Lemma rangeItems_wire (items : list track) (i : nat) (w : World) :
  wire (snd (rangeItems i items w)) = wire w.
Proof.
  destruct (rangeItems_run items i w) as (out & E & _). now rewrite E.
Qed.

(** [callSpotifySearchParsed], path by path. *)
Lemma search_paths (token term : string) (limit : Z) (w : World) :
  callSpotifySearchParsed token term limit w
  = let req := search_request token term limit in
    match url_Parse_error (URL req) with
    | Some e => (Some e, w)
    | None =>
        match transport req with
        | Err e => (Some e, sent w req)
        | Ok resp =>
            if negb (Z.quot (StatusCode resp) 100 =? 2)
            then (Some (Errorf "search failed: %s: %s"
                          [AStr (Status resp); AStr (Body resp)]), sent w req)
            else
              match Decode_searchResp (Body resp) with
              | Err e => (Some e, sent w req)
              | Ok out =>
                  match Items (Tracks out) with
                  | [] => (None, printed (sent w req) ["No tracks found." ++ nl])
                  | items => (None, snd (rangeItems 0 items (sent w req)))
                  end
              end
        end
    end.
Proof.
  unfold callSpotifySearchParsed, NewRequestWithContext, search_request.
  cbn [URL Header_Set]. cbv zeta.
  destruct (url_Parse_error _); [reflexivity|].
  unfold bind at 1. unfold Do at 1. unfold Header_Set; cbn [Method URL ReqBody Header filter].
  destruct (transport _) as [resp|e]; [|reflexivity].
  destruct (negb _); [reflexivity|].
  destruct (Decode_searchResp _) as [out|e]; [|reflexivity].
  destruct (Items _) as [|t0 l0]; [reflexivity|].
  unfold bind, sent.
  destruct (rangeItems 0 (t0 :: l0) _) as [[] w']. reflexivity.
Qed.

(** A search that sent a request sent the one it built. *)
Lemma search_Answered (token term : string) (limit : Z) (w : World)
    (req : Request) (resp : Response) :
  Answered (callSpotifySearchParsed token term limit) w req resp ->
  url_Parse_error (URL (search_request token term limit)) = None
  /\ transport (search_request token term limit) = Ok resp.
Proof.
  intros [Hw Ht]. rewrite search_paths in Hw. cbv zeta in Hw.
  destruct (url_Parse_error _).
  - cbn in Hw. now apply app_one_neq in Hw.
  - split; [reflexivity|].
    assert (wire w ++ [search_request token term limit] = wire w ++ [req])%list as E.
    { rewrite <- Hw.
      destruct (transport _) as [r|]; [|reflexivity].
      destruct (negb _); [reflexivity|].
      destruct (Decode_searchResp _) as [o|]; [|reflexivity].
      destruct (Items _); [reflexivity|].
      cbn [snd]. now rewrite rangeItems_wire. }
    apply app_one_inv in E. now rewrite E.
Qed.

(** [getAccessToken], path by path. *)
Lemma token_paths (clientID clientSecret : string) (w : World) :
  getAccessToken clientID clientSecret w
  = let req := token_request clientID clientSecret in
    match url_Parse_error (URL req) with
    | Some e => (("", 0, Some e), w)
    | None =>
        match transport req with
        | Err e => (("", 0, Some e), sent w req)
        | Ok resp =>
            if negb (StatusCode resp =? StatusOK)
            then (("", 0, Some ("status " ++ Status resp ++ ": " ++ Body resp)),
                  sent w req)
            else
              match Decode_payload (Body resp) with
              | Err e => (("", 0, Some e), sent w req)
              | Ok p => ((AccessToken p, ExpiresIn p, None), sent w req)
              end
        end
    end.
Proof.
  unfold getAccessToken, NewRequestWithContext, token_request.
  cbn [URL Header_Set]. cbv zeta.
  destruct (url_Parse_error _); [reflexivity|].
  unfold bind at 1. unfold Do at 1. unfold Header_Set; cbn [Method URL ReqBody Header filter].
  destruct (transport _) as [resp|e]; [|reflexivity].
  rewrite Errorf_status.
  destruct (negb _); [reflexivity|].
  destruct (Decode_payload _) as [p|e]; reflexivity.
Qed.

Lemma token_Answered (clientID clientSecret : string) (w : World)
    (req : Request) (resp : Response) :
  Answered (getAccessToken clientID clientSecret) w req resp ->
  url_Parse_error (URL (token_request clientID clientSecret)) = None
  /\ transport (token_request clientID clientSecret) = Ok resp.
Proof.
  intros [Hw Ht]. rewrite token_paths in Hw. cbv zeta in Hw.
  destruct (url_Parse_error _).
  - cbn in Hw. now apply app_one_neq in Hw.
  - split; [reflexivity|].
    assert (wire w ++ [token_request clientID clientSecret] = wire w ++ [req])%list as E.
    { rewrite <- Hw.
      destruct (transport _) as [r|]; [|reflexivity].
      destruct (negb _); [reflexivity|].
      destruct (Decode_payload _); reflexivity. }
    apply app_one_inv in E. now rewrite E.
Qed.

Lemma append_assoc3 (a b c : string) : (a ++ b) ++ c = a ++ b ++ c.
Proof. induction a; simpl; congruence. Qed.

Lemma Itoa_digit (r : Z) : 1 <= r <= 9 -> String.length (Itoa r) = 1%nat.
Proof.
  intros Hr.
  assert (r = 1 \/ r = 2 \/ r = 3 \/ r = 4 \/ r = 5 \/ r = 6 \/ r = 7 \/ r = 8 \/ r = 9)
    as E by lia.
  repeat (destruct E as [->|E]; [reflexivity|]). now subst.
Qed.

Lemma Itoa_digits (r : Z) : 10 <= r -> (2 <= String.length (Itoa r))%nat.
Proof.
  intros Hr. destruct r as [|p|p]; try lia.
  unfold Itoa. cbn [Z.to_int NilZero.string_of_int].
  pose proof (DecimalPos.Unsigned.of_to p) as E.
  unfold NilZero.string_of_uint.
  destruct (Pos.to_uint p) as [|u|u|u|u|u|u|u|u|u|u] eqn:Eu;
    try discriminate;
    (destruct u; [cbn in E; try discriminate; injection E as E; lia|..]; cbn; lia).
Qed.

(** [%2d] puts one space before a rank of one digit and none before a
    longer one. *)
Lemma rank_field_form (r : Z) :
  1 <= r -> rank_field r = (if r <? 10 then " " else "") ++ Itoa r.
Proof.
  intros Hr. unfold rank_field, pad. destruct (Z.ltb_spec r 10).
  - rewrite Itoa_digit by lia. reflexivity.
  - pose proof (Itoa_digits r ltac:(lia)) as L.
    replace (2 - String.length (Itoa r))%nat with 0%nat by lia. reflexivity.
Qed.

(** The line of a track, with the rank as the specification words it
    after the padding of [%2d]. *)
Lemma track_line_padded (r : Z) (a t : string) :
  1 <= r ->
  rank_field r ++ ") " ++ a ++ " — " ++ t ++ nl
  = (if r <? 10 then " " else "") ++ Spec.track_line r a t ++ nl.
Proof.
  intros Hr. rewrite rank_field_form by exact Hr.
  unfold Spec.track_line. now rewrite !append_assoc3.
Qed.

(** A search answered with tracks lists them, in their order. *)
Lemma search_listing (token term : string) (limit : Z)
    (w : World) (req : Request) (resp : Response) (out : searchResp) :
  Answered (callSpotifySearchParsed token term limit) w req resp ->
  Z.quot (StatusCode resp) 100 = 2 ->
  Decode_searchResp (Body resp) = Ok out ->
  Items (Tracks out) <> [] ->
  exists lines,
    callSpotifySearchParsed token term limit w
    = (None, printed (sent w (search_request token term limit)) lines)
    /\ List.length lines = List.length (Items (Tracks out))
    /\ forall (n : nat) (t : track),
         nth_error (Items (Tracks out)) n = Some t ->
         nth_error lines n
         = Some (rank_field (Z.of_nat n + 1) ++ ") "
                 ++ match Artists t with
                    | a :: _ => artist_Name a
                    | [] => "Unknown"
                    end
                 ++ " — " ++ track_Name t ++ nl).
Proof.
  intros HA Hs Hd Hi. destruct (search_Answered _ _ _ _ _ _ HA) as [Hp Ht].
  rewrite search_paths. cbv zeta. rewrite Hp, Ht, Hs. cbn [Z.eqb Pos.eqb negb].
  rewrite Hd.
  destruct (Items (Tracks out)) as [|t0 l0] eqn:Ei; [congruence|].
  destruct (rangeItems_run (t0 :: l0) 0 (sent w (search_request token term limit)))
    as (lines & E & Hl & Hn).
  exists lines. rewrite E. auto.
Qed.

End IOFacts.

(** C9: when [SPOTIFY_CLIENT_ID] or [SPOTIFY_CLIENT_SECRET] is empty,
    either entry point prints the missing-variables message and returns:
    nothing else is written and no request reaches the HTTP client (the
    wire is as it was). *)
Theorem main_missing_credentials `{Runtime} `{JSON} (w : World) :
  env w "SPOTIFY_CLIENT_ID" = "" \/ env w "SPOTIFY_CLIENT_SECRET" = "" ->
  let w' := printed w ["Missing SPOTIFY_CLIENT_ID or SPOTIFY_CLIENT_SECRET in env" ++ nl] in
  CmdWeb.main w = (tt, w') /\ Part000.main w = (tt, w') /\ wire w' = wire w.
Proof.
  intros Hmiss w'.
  assert (String.eqb (env w "SPOTIFY_CLIENT_ID") ""
          || String.eqb (env w "SPOTIFY_CLIENT_SECRET") "" = true) as E.
  { destruct Hmiss as [-> | ->]; [reflexivity|]. apply orb_true_r. }
  unfold CmdWeb.main, Part000.main, bind, Getenv. rewrite E.
  repeat split; reflexivity.
Qed.

Lemma main_missing_credentials_witness :
  let rt := demo_runtime answer_401 answer_401 in
  let js := demo_json (Ok demo_payload) (Ok (found [])) in
  let w := demo_world "an-id" "" in
  let w' := printed w ["Missing SPOTIFY_CLIENT_ID or SPOTIFY_CLIENT_SECRET in env" ++ nl] in
  env w "SPOTIFY_CLIENT_SECRET" = ""
  /\ @CmdWeb.main rt js w = (tt, w') /\ @Part000.main rt js w = (tt, w') /\ wire w' = wire w.
Proof.
  split; [reflexivity|].
  apply (@main_missing_credentials (demo_runtime answer_401 answer_401)
           (demo_json (Ok demo_payload) (Ok (found []))) (demo_world "an-id" "")).
  right. reflexivity.
Defined.

(** C8: when the token endpoint answers with a status other than 200,
    [getAccessToken] returns the empty token, the expiry 0 and an error
    whose message, ["status <Status>: <Body>"], contains the status text
    and the body text of the answer. *)
Theorem getAccessToken_not_200 `{Runtime} `{JSON} (clientID clientSecret : string)
    (w : World) (req : Request) (resp : Response) :
  Answered (getAccessToken clientID clientSecret) w req resp ->
  StatusCode resp <> 200 ->
  exists msg,
    getAccessToken clientID clientSecret w = (("", 0, Some msg), sent w req)
    /\ msg = "status " ++ Status resp ++ ": " ++ Body resp
    /\ Contains (Status resp) msg
    /\ Contains (Body resp) msg.
Proof.
  intros HA Hs. destruct (token_Answered _ _ _ _ _ HA) as [Hp Ht].
  assert (req = token_request clientID clientSecret) as ->.
  { destruct HA as [Hw _]. rewrite token_paths in Hw. cbv zeta in Hw.
    rewrite Hp, Ht in Hw.
    destruct (negb _); [|destruct (Decode_payload _)];
      cbn in Hw; apply app_one_inv in Hw; congruence. }
  eexists. rewrite token_paths. cbv zeta. rewrite Hp, Ht.
  replace (StatusCode resp =? StatusOK) with false
    by (symmetry; apply Z.eqb_neq; exact Hs).
  cbn [negb]. split; [reflexivity|]. split; [reflexivity|]. split.
  - exists "status ", (": " ++ Body resp). reflexivity.
  - exists ("status " ++ Status resp ++ ": "), "".
    rewrite append_empty_r, !append_assoc3. reflexivity.
Qed.

Lemma getAccessToken_not_200_witness :
  let rt := demo_runtime answer_401 (answer_200 "") in
  let js := demo_json (Ok demo_payload) (Ok (found [])) in
  let w := demo_world "an-id" "a-secret" in
  exists msg,
    @getAccessToken rt js "an-id" "a-secret" w
    = (("", 0, Some msg), sent w (@token_request rt "an-id" "a-secret"))
    /\ msg = "status 401 Unauthorized: invalid_client"
    /\ Contains "401 Unauthorized" msg
    /\ Contains "invalid_client" msg.
Proof.
  apply (@getAccessToken_not_200 (demo_runtime answer_401 (answer_200 ""))
           (demo_json (Ok demo_payload) (Ok (found [])))
           "an-id" "a-secret" (demo_world "an-id" "a-secret")
           (@token_request (demo_runtime answer_401 (answer_200 "")) "an-id" "a-secret")
           {| StatusCode := 401; Status := "401 Unauthorized"; Body := "invalid_client" |}).
  - split; reflexivity.
  - simpl. lia.
Defined.

(** C6: when the decoded answer of the search has no track,
    [callSpotifySearchParsed] writes the one line ["No tracks found."]
    and returns a nil error. *)
Theorem search_no_tracks `{Runtime} `{JSON} (token term : string) (limit : Z)
    (w : World) (req : Request) (resp : Response) (out : searchResp) :
  Answered (callSpotifySearchParsed token term limit) w req resp ->
  Z.quot (StatusCode resp) 100 = 2 ->
  Decode_searchResp (Body resp) = Ok out ->
  Items (Tracks out) = [] ->
  callSpotifySearchParsed token term limit w
  = (None, printed (sent w (search_request token term limit)) ["No tracks found." ++ nl]).
Proof.
  intros HA Hs Hd Hi. destruct (search_Answered _ _ _ _ _ _ HA) as [Hp Ht].
  rewrite search_paths. cbv zeta. rewrite Hp, Ht, Hs. cbn [Z.eqb Pos.eqb negb].
  now rewrite Hd, Hi.
Qed.

Lemma search_no_tracks_witness :
  let rt := demo_runtime (answer_200 "") (answer_200 "") in
  let js := demo_json (Ok demo_payload) (Ok (found [])) in
  let w := demo_world "an-id" "a-secret" in
  @callSpotifySearchParsed rt js "BQDtoken" "Daft Punk" 5 w
  = (None, printed (sent w (@search_request rt "BQDtoken" "Daft Punk" 5))
             ["No tracks found." ++ nl]).
Proof.
  apply (@search_no_tracks (demo_runtime (answer_200 "") (answer_200 ""))
           (demo_json (Ok demo_payload) (Ok (found [])))
           "BQDtoken" "Daft Punk" 5 (demo_world "an-id" "a-secret")
           (@search_request (demo_runtime (answer_200 "") (answer_200 ""))
              "BQDtoken" "Daft Punk" 5)
           {| StatusCode := 200; Status := "200 OK"; Body := "" |}
           (found [])).
  - split; reflexivity.
  - reflexivity.
  - reflexivity.
  - reflexivity.
Defined.

(** C5: in the listing of a search, the line of a track whose artist
    list is empty shows the artist ["Unknown"]: the line at the track's
    position is [rank ") Unknown — " name]. *)
Theorem search_unknown_artist `{Runtime} `{JSON} (token term : string) (limit : Z)
    (w : World) (req : Request) (resp : Response) (out : searchResp)
    (n : nat) (t : track) :
  Answered (callSpotifySearchParsed token term limit) w req resp ->
  Z.quot (StatusCode resp) 100 = 2 ->
  Decode_searchResp (Body resp) = Ok out ->
  nth_error (Items (Tracks out)) n = Some t ->
  Artists t = [] ->
  exists lines,
    callSpotifySearchParsed token term limit w
    = (None, printed (sent w (search_request token term limit)) lines)
    /\ nth_error lines n
       = Some (rank_field (Z.of_nat n + 1) ++ ") " ++ "Unknown" ++ " — "
               ++ track_Name t ++ nl).
Proof.
  intros HA Hs Hd Hn Ha.
  destruct (search_listing token term limit w req resp out HA Hs Hd)
    as (lines & E & _ & Hl).
  { intros E. rewrite E in Hn. destruct n; discriminate. }
  exists lines. split; [exact E|].
  rewrite (Hl n t Hn), Ha. reflexivity.
Qed.

Lemma search_unknown_artist_witness :
  let rt := demo_runtime (answer_200 "") (answer_200 "") in
  let js := demo_json (Ok demo_payload) (Ok (found [one_more_time; untitled])) in
  let w := demo_world "an-id" "a-secret" in
  exists lines,
    @callSpotifySearchParsed rt js "BQDtoken" "Daft Punk" 5 w
    = (None, printed (sent w (@search_request rt "BQDtoken" "Daft Punk" 5)) lines)
    /\ nth_error lines 1 = Some (" 2) Unknown — Untitled" ++ nl).
Proof.
  apply (@search_unknown_artist (demo_runtime (answer_200 "") (answer_200 ""))
           (demo_json (Ok demo_payload) (Ok (found [one_more_time; untitled])))
           "BQDtoken" "Daft Punk" 5 (demo_world "an-id" "a-secret")
           (@search_request (demo_runtime (answer_200 "") (answer_200 ""))
              "BQDtoken" "Daft Punk" 5)
           {| StatusCode := 200; Status := "200 OK"; Body := "" |}
           (found [one_more_time; untitled]) 1%nat untitled).
  - split; reflexivity.
  - reflexivity.
  - reflexivity.
  - reflexivity.
  - reflexivity.
Defined.

(** C7, as the code has it: a search answered with a non-empty track
    list writes one line per track, in the order of the answer; the line
    of the track at position [n] (from 0) is
    ["<rank>) <artist> — <track>"] for the rank [n + 1], with the rank
    right-justified in two columns, that is, with one space before a
    rank below 10. *)
Theorem search_lines_in_order `{Runtime} `{JSON} (token term : string) (limit : Z)
    (w : World) (req : Request) (resp : Response) (out : searchResp) :
  Answered (callSpotifySearchParsed token term limit) w req resp ->
  Z.quot (StatusCode resp) 100 = 2 ->
  Decode_searchResp (Body resp) = Ok out ->
  Items (Tracks out) <> [] ->
  exists lines,
    callSpotifySearchParsed token term limit w
    = (None, printed (sent w (search_request token term limit)) lines)
    /\ List.length lines = List.length (Items (Tracks out))
    /\ forall (n : nat) (t : track),
         nth_error (Items (Tracks out)) n = Some t ->
         nth_error lines n
         = Some ((if Z.of_nat n + 1 <? 10 then " " else "")
                 ++ Spec.track_line (Z.of_nat n + 1)
                      match Artists t with
                      | a :: _ => artist_Name a
                      | [] => "Unknown"
                      end
                      (track_Name t)
                 ++ nl).
Proof.
  intros HA Hs Hd Hi.
  destruct (search_listing token term limit w req resp out HA Hs Hd Hi)
    as (lines & E & Hlen & Hl).
  exists lines. repeat split; auto.
  intros n t Hn. rewrite (Hl n t Hn).
  now rewrite track_line_padded by lia.
Qed.

Lemma search_lines_in_order_witness :
  let rt := demo_runtime (answer_200 "") (answer_200 "") in
  let js := demo_json (Ok demo_payload) (Ok (found [one_more_time; untitled])) in
  let w := demo_world "an-id" "a-secret" in
  exists lines,
    @callSpotifySearchParsed rt js "BQDtoken" "Daft Punk" 5 w
    = (None, printed (sent w (@search_request rt "BQDtoken" "Daft Punk" 5)) lines)
    /\ List.length lines = 2%nat
    /\ forall (n : nat) (t : track),
         nth_error [one_more_time; untitled] n = Some t ->
         nth_error lines n
         = Some ((if Z.of_nat n + 1 <? 10 then " " else "")
                 ++ Spec.track_line (Z.of_nat n + 1)
                      match Artists t with
                      | a :: _ => artist_Name a
                      | [] => "Unknown"
                      end
                      (track_Name t)
                 ++ nl).
Proof.
  apply (@search_lines_in_order (demo_runtime (answer_200 "") (answer_200 ""))
           (demo_json (Ok demo_payload) (Ok (found [one_more_time; untitled])))
           "BQDtoken" "Daft Punk" 5 (demo_world "an-id" "a-secret")
           (@search_request (demo_runtime (answer_200 "") (answer_200 ""))
              "BQDtoken" "Daft Punk" 5)
           {| StatusCode := 200; Status := "200 OK"; Body := "" |}
           (found [one_more_time; untitled])).
  - split; reflexivity.
  - reflexivity.
  - reflexivity.
  - simpl. discriminate.
Defined.

(** C7, as stated, fails: the line written for the first track of an
    answer is not ["1) <artist> — <track>"]; it starts with a space. *)
Lemma search_line_rank_is_padded :
  stdout (snd (@callSpotifySearchParsed
                 (demo_runtime (answer_200 "") (answer_200 ""))
                 (demo_json (Ok demo_payload) (Ok (found [one_more_time])))
                 "BQDtoken" "Daft Punk" 5 (demo_world "an-id" "a-secret")))
  = [" 1) Daft Punk — One More Time" ++ nl]
  /\ [" 1) Daft Punk — One More Time" ++ nl]
     <> [Spec.track_line 1 "Daft Punk" "One More Time" ++ nl].
Proof.
  split; [reflexivity|]. vm_compute. discriminate.
Qed.

(** ** The cadence estimate *)

(** C2, as the code has it: [BPMEstimateSimple(1.75, 2.68224)] returns
    the stride length 0.7730254 m (0.773 to three places), for the scale
    factor 1.06698 (1.067), and the cadence 208.19 steps per minute (208). *)
Theorem BPMEstimateSimple_reference :
  BPMEstimateSimple 1.75 2.68224 = (208.18772578494836, 0.77302539999999997)%float
  /\ stride_scale 2.68224 = 1.0669777777777778%float
  /\ approx (snd (BPMEstimateSimple 1.75 2.68224)) 0.773 0.0005 = true
  /\ approx (stride_scale 2.68224) 1.067 0.0005 = true
  /\ approx (fst (BPMEstimateSimple 1.75 2.68224)) 208 0.5 = true.
Proof. repeat split; vm_compute; reflexivity. Qed.

(** C2, as stated, fails: the stride length returned is not within
    0.25 m of 0.475 m, the scale factor is not within 0.005 of 1.058 and
    the cadence is not within 100 steps per minute of 339. *)
Lemma BPMEstimateSimple_reference_not_as_stated :
  approx (snd (BPMEstimateSimple 1.75 2.68224)) 0.475 0.25 = false
  /\ approx (stride_scale 2.68224) 1.058 0.005 = false
  /\ approx (fst (BPMEstimateSimple 1.75 2.68224)) 339 100 = false.
Proof. repeat split; vm_compute; reflexivity. Qed.

(** ** More on the token exchange and the search client *)

Section IOMore.

Context `{Runtime} `{JSON}.

Lemma Errorf_search_failed (st body : string) :
  Errorf "search failed: %s: %s" [AStr st; AStr body]
  = "search failed: " ++ st ++ ": " ++ body.
Proof.
  change (Errorf "search failed: %s: %s" [AStr st; AStr body])
    with ("search failed: " ++ st ++ ": " ++ body ++ "").
  now rewrite append_empty_r.
Qed.

Lemma Sprintf_d (z : Z) : Sprintf "%d" [AInt z] = Itoa z.
Proof. change (Sprintf "%d" [AInt z]) with (Itoa z ++ ""). apply append_empty_r. Qed.

(** The two requests, field by field. *)
Lemma token_request_fields (clientID clientSecret : string) :
  token_request clientID clientSecret
  = {| Method := "POST";
       URL := "https://accounts.spotify.com/api/token";
       ReqBody := url_Encode [("grant_type", "client_credentials")];
       Header := [("Authorization",
                   "Basic " ++ base64_StdEncoding (clientID ++ ":" ++ clientSecret));
                  ("Content-Type", "application/x-www-form-urlencoded")] |}.
Proof. reflexivity. Qed.

Lemma search_request_fields (token term : string) (limit : Z) :
  search_request token term limit
  = {| Method := "GET";
       URL := "https://api.spotify.com/v1/search?"
              ++ url_Encode [("q", term); ("type", "track"); ("limit", Itoa limit)];
       ReqBody := "";
       Header := [("Authorization", "Bearer " ++ token)] |}.
Proof. unfold search_request. rewrite Sprintf_d. reflexivity. Qed.

Lemma quot_100_is_2 (code : Z) : Z.quot code 100 = 2 <-> 200 <= code <= 299.
Proof.
  split.
  - intros E. pose proof (Z.quot_rem' code 100) as Q. rewrite E in Q.
    destruct (Z_lt_le_dec code 0) as [Hn|Hp].
    + pose proof (Z.rem_bound_pos_neg code 100 ltac:(lia) ltac:(lia)). lia.
    + pose proof (Z.rem_bound_pos code 100 Hp ltac:(lia)). lia.
  - intros Hc. symmetry. apply (Z.quot_unique code 100 2 (code - 200)); lia.
Qed.

Lemma printed_nil (w : World) : printed w [] = w.
Proof. destruct w. unfold printed. cbn. now rewrite app_nil_r. Qed.

Lemma printed_printed (w : World) (a b : list string) :
  printed (printed w a) b = printed w (a ++ b).
Proof. unfold printed. cbn. now rewrite app_assoc. Qed.

(** What a search leaves behind: at most its one request on the wire,
    and lines on standard output exactly when it returns no error. *)
Lemma search_world (token term : string) (limit : Z) (w : World) :
  exists lines,
    snd (callSpotifySearchParsed token term limit w)
    = printed (match url_Parse_error (URL (search_request token term limit)) with
               | Some _ => w
               | None => sent w (search_request token term limit)
               end) lines
    /\ (fst (callSpotifySearchParsed token term limit w) = None -> lines <> [])
    /\ (fst (callSpotifySearchParsed token term limit w) <> None -> lines = []).
Proof.
  rewrite search_paths. cbv zeta.
  destruct (url_Parse_error _) as [e|].
  { exists []. rewrite printed_nil. cbn. repeat split; congruence. }
  destruct (transport _) as [resp|e].
  2:{ exists []. rewrite printed_nil. cbn. repeat split; congruence. }
  destruct (negb _).
  { exists []. rewrite printed_nil. cbn. repeat split; congruence. }
  destruct (Decode_searchResp _) as [out|e].
  2:{ exists []. rewrite printed_nil. cbn. repeat split; congruence. }
  destruct (Items (Tracks out)) as [|t0 l0].
  { eexists. cbn [fst snd]. repeat split; congruence. }
  destruct (rangeItems_run (t0 :: l0) 0 (sent w (search_request token term limit)))
    as (lines & E & Hl & _).
  exists lines. rewrite E. cbn [fst snd]. split; [reflexivity|]. split; [|congruence].
  intros _ ->. discriminate.
Qed.

(** What a token exchange leaves behind. *)
Lemma token_world (clientID clientSecret : string) (w : World) :
  snd (getAccessToken clientID clientSecret w)
  = match url_Parse_error (URL (token_request clientID clientSecret)) with
    | Some _ => w
    | None => sent w (token_request clientID clientSecret)
    end.
Proof.
  rewrite token_paths. cbv zeta.
  destruct (url_Parse_error _) as [e|]; [reflexivity|].
  destruct (transport _) as [resp|e]; [|reflexivity].
  destruct (negb _); [reflexivity|].
  destruct (Decode_payload _); reflexivity.
Qed.

Lemma Println_two (a b : string) (w : World) :
  Println [a; b] w = (tt, printed w [a ++ " " ++ b ++ nl]).
Proof.
  unfold Println, write, printed. cbn [String.concat]. now rewrite !append_assoc3.
Qed.

Lemma Printf_cadence (w : World) :
  (let '(bpm, stepLen) := BPMEstimateSimple 1.75%float 2.68224%float in
   Printf ("Estimated cadence: %.0f spm (step length: %.2f m)" ++ nl)
     [AFloat bpm; AFloat stepLen]) w
  = (tt, printed w [cadence_line]).
Proof.
  replace (BPMEstimateSimple 1.75 2.68224)
    with (208.18772578494836%float, 0.77302539999999997%float)
    by (vm_compute; reflexivity).
  reflexivity.
Qed.

Lemma Part000_main_paths (w : World) :
  Part000.main w
  = let id := env w "SPOTIFY_CLIENT_ID" in
    let secret := env w "SPOTIFY_CLIENT_SECRET" in
    if String.eqb id "" || String.eqb secret ""
    then (tt, printed w ["Missing SPOTIFY_CLIENT_ID or SPOTIFY_CLIENT_SECRET in env" ++ nl])
    else (tt, snd (after_credentials id secret w)).
Proof.
  unfold Part000.main, after_credentials, bind, Getenv. cbv zeta.
  destruct (_ || _); [reflexivity|].
  destruct (getAccessToken _ _ w) as [[[token expiresIn] [e|]] w1].
  - rewrite Println_two. reflexivity.
  - unfold Printf at 1 2. unfold write.
    change (Sprintf ("token length: %d" ++ nl) [AInt (len token)])
      with ("token length: " ++ Itoa (len token) ++ nl).
    change (Sprintf ("expires_in (sec): %d" ++ nl) [AInt expiresIn])
      with ("expires_in (sec): " ++ Itoa expiresIn ++ nl).
    cbn [env stdout wire]. rewrite <- app_assoc. cbn [app]. fold (printed w1
      ["token length: " ++ Itoa (len token) ++ nl;
       "expires_in (sec): " ++ Itoa expiresIn ++ nl]).
    destruct (callSpotifySearchParsed _ _ _ _) as [[e|] w3].
    + rewrite Println_two. reflexivity.
    + reflexivity.
Qed.

Lemma CmdWeb_main_paths (w : World) :
  CmdWeb.main w
  = let id := env w "SPOTIFY_CLIENT_ID" in
    let secret := env w "SPOTIFY_CLIENT_SECRET" in
    if String.eqb id "" || String.eqb secret ""
    then (tt, printed w ["Missing SPOTIFY_CLIENT_ID or SPOTIFY_CLIENT_SECRET in env" ++ nl])
    else
      let '(go_on, w') := after_credentials id secret w in
      if go_on then (tt, printed w' [cadence_line]) else (tt, w').
Proof.
  unfold CmdWeb.main, after_credentials, bind, Getenv. cbv zeta.
  destruct (_ || _); [reflexivity|].
  destruct (getAccessToken _ _ w) as [[[token expiresIn] [e|]] w1].
  - rewrite Println_two. reflexivity.
  - unfold Printf at 1 2. unfold write.
    change (Sprintf ("token length: %d" ++ nl) [AInt (len token)])
      with ("token length: " ++ Itoa (len token) ++ nl).
    change (Sprintf ("expires_in (sec): %d" ++ nl) [AInt expiresIn])
      with ("expires_in (sec): " ++ Itoa expiresIn ++ nl).
    cbn [env stdout wire]. rewrite <- app_assoc. cbn [app]. fold (printed w1
      ["token length: " ++ Itoa (len token) ++ nl;
       "expires_in (sec): " ++ Itoa expiresIn ++ nl]).
    destruct (callSpotifySearchParsed _ _ _ _) as [[e|] w3].
    + rewrite Println_two. apply Printf_cadence.
    + apply Printf_cadence.
Qed.

End IOMore.

(** X1: when the token endpoint answers 200 with a body that decodes,
    [getAccessToken] returns the decoded access token and expiry and a
    nil error, after its one request. *)
Theorem getAccessToken_ok `{Runtime} `{JSON} (clientID clientSecret : string)
    (w : World) (req : Request) (resp : Response) (p : payload) :
  Answered (getAccessToken clientID clientSecret) w req resp ->
  StatusCode resp = 200 ->
  Decode_payload (Body resp) = Ok p ->
  getAccessToken clientID clientSecret w
  = ((AccessToken p, ExpiresIn p, None), sent w (token_request clientID clientSecret)).
Proof.
  intros HA Hs Hd. destruct (token_Answered _ _ _ _ _ HA) as [Hp Ht].
  rewrite token_paths. cbv zeta. rewrite Hp, Ht, Hs. cbn [Z.eqb Pos.eqb negb].
  now rewrite Hd.
Qed.

Lemma getAccessToken_ok_witness :
  let rt := demo_runtime (answer_200 "") (answer_200 "") in
  let js := demo_json (Ok demo_payload) (Ok (found [])) in
  let w := demo_world "an-id" "a-secret" in
  @getAccessToken rt js "an-id" "a-secret" w
  = (("BQDtoken", 3600, None), sent w (@token_request rt "an-id" "a-secret")).
Proof.
  apply (@getAccessToken_ok (demo_runtime (answer_200 "") (answer_200 ""))
           (demo_json (Ok demo_payload) (Ok (found [])))
           "an-id" "a-secret" (demo_world "an-id" "a-secret")
           (@token_request (demo_runtime (answer_200 "") (answer_200 "")) "an-id" "a-secret")
           {| StatusCode := 200; Status := "200 OK"; Body := "" |} demo_payload).
  - split; reflexivity.
  - reflexivity.
  - reflexivity.
Defined.

(** X2: whatever the servers answer, [getAccessToken] writes nothing
    to standard output and hands at most one request to the HTTP client,
    the POST of [grant_type=client_credentials] to the token URL with the
    credentials in a Basic [Authorization] header; and whenever it
    returns an error, the token is empty and the expiry is 0. *)
Theorem getAccessToken_leaves `{Runtime} `{JSON} (clientID clientSecret : string)
    (w : World) :
  let '((token, expiresIn, err), w') := getAccessToken clientID clientSecret w in
  (err <> None -> token = "" /\ expiresIn = 0)
  /\ env w' = env w
  /\ stdout w' = stdout w
  /\ (wire w' = wire w
      \/ wire w'
         = (wire w
            ++ [ {| Method := "POST";
                    URL := "https://accounts.spotify.com/api/token";
                    ReqBody := url_Encode [("grant_type", "client_credentials")];
                    Header := [("Authorization",
                                ("Basic " ++ base64_StdEncoding
                                               (clientID ++ ":" ++ clientSecret))%string);
                               ("Content-Type",
                                "application/x-www-form-urlencoded")] |} ])%list).
Proof.
  rewrite <- token_request_fields, token_paths. cbv zeta.
  destruct (url_Parse_error _) as [e|];
    [|destruct (transport _) as [resp|e];
      [destruct (negb _); [|destruct (Decode_payload _) as [p|e]]|]];
    cbn [env stdout wire sent];
    (split; [first [intros _; now split | intros E; congruence]|]);
    (split; [reflexivity|]); (split; [reflexivity|]);
    first [now left | now right].
Qed.

(** X3: the search accepts the statuses 200 to 299 and no other: when
    the answer has a status outside that range, [callSpotifySearchParsed]
    decodes nothing, prints nothing and returns the error
    ["search failed: <Status>: <Body>"]. *)
Theorem search_not_2xx `{Runtime} `{JSON} (token term : string) (limit : Z)
    (w : World) (req : Request) (resp : Response) :
  Answered (callSpotifySearchParsed token term limit) w req resp ->
  ~ (200 <= StatusCode resp <= 299) ->
  callSpotifySearchParsed token term limit w
  = (Some ("search failed: " ++ Status resp ++ ": " ++ Body resp),
     sent w (search_request token term limit)).
Proof.
  intros HA Hs. destruct (search_Answered _ _ _ _ _ _ HA) as [Hp Ht].
  rewrite search_paths. cbv zeta. rewrite Hp, Ht.
  replace (Z.quot (StatusCode resp) 100 =? 2) with false.
  - cbn [negb]. now rewrite Errorf_search_failed.
  - symmetry. apply Z.eqb_neq. intros E. now apply quot_100_is_2 in E.
Qed.

Lemma search_not_2xx_witness :
  let rt := demo_runtime (answer_200 "") answer_401 in
  let js := demo_json (Ok demo_payload) (Ok (found [one_more_time])) in
  let w := demo_world "an-id" "a-secret" in
  @callSpotifySearchParsed rt js "BQDtoken" "Daft Punk" 5 w
  = (Some "search failed: 401 Unauthorized: invalid_client",
     sent w (@search_request rt "BQDtoken" "Daft Punk" 5)).
Proof.
  apply (@search_not_2xx (demo_runtime (answer_200 "") answer_401)
           (demo_json (Ok demo_payload) (Ok (found [one_more_time])))
           "BQDtoken" "Daft Punk" 5 (demo_world "an-id" "a-secret")
           (@search_request (demo_runtime (answer_200 "") answer_401)
              "BQDtoken" "Daft Punk" 5)
           {| StatusCode := 401; Status := "401 Unauthorized"; Body := "invalid_client" |}).
  - split; reflexivity.
  - simpl. lia.
Defined.

(** X4: whatever the servers answer, [callSpotifySearchParsed] hands
    at most one request to the HTTP client, the GET of the search URL
    with the query [q], [type=track] and [limit] and the token in a
    Bearer [Authorization] header; and it writes to standard output
    exactly when it returns a nil error. *)
Theorem search_leaves `{Runtime} `{JSON} (token term : string) (limit : Z)
    (w : World) :
  let '(err, w') := callSpotifySearchParsed token term limit w in
  env w' = env w
  /\ (wire w' = wire w
      \/ wire w'
         = (wire w
            ++ [ {| Method := "GET";
                    URL := ("https://api.spotify.com/v1/search?"
                            ++ url_Encode [("q", term); ("type", "track");
                                           ("limit", Itoa limit)])%string;
                    ReqBody := "";
                    Header := [("Authorization", ("Bearer " ++ token)%string)] |} ])%list)
  /\ exists lines,
       stdout w' = (stdout w ++ lines)%list /\ (err = None <-> lines <> []).
Proof.
  rewrite <- search_request_fields.
  destruct (search_world token term limit w) as (lines & E & H1 & H2).
  destruct (callSpotifySearchParsed token term limit w) as [err w'].
  cbn [fst snd] in *. subst w'.
  destruct (url_Parse_error _); cbn [env wire stdout printed sent].
  - split; [reflexivity|]. split; [now left|].
    exists lines. split; [reflexivity|]. split; [exact H1|].
    intros Hl. destruct err as [e'|]; [|reflexivity].
    exfalso. apply Hl, H2. discriminate.
  - split; [reflexivity|]. split; [now right|].
    exists lines. split; [reflexivity|]. split; [exact H1|].
    intros Hl. destruct err as [e'|]; [|reflexivity].
    exfalso. apply Hl, H2. discriminate.
Qed.

(** X5: with both credentials set, when the token exchange returns an
    error, either entry point prints ["Token fetch failed: <error>"] and
    returns: no search request goes out and [cmd/web/main.go] prints no
    cadence line. *)
Theorem main_token_failure `{Runtime} `{JSON} (w : World) (e : error) :
  env w "SPOTIFY_CLIENT_ID" <> "" ->
  env w "SPOTIFY_CLIENT_SECRET" <> "" ->
  snd (fst (getAccessToken (env w "SPOTIFY_CLIENT_ID")
              (env w "SPOTIFY_CLIENT_SECRET") w)) = Some e ->
  let w1 := snd (getAccessToken (env w "SPOTIFY_CLIENT_ID")
                   (env w "SPOTIFY_CLIENT_SECRET") w) in
  CmdWeb.main w = (tt, printed w1 ["Token fetch failed: " ++ e ++ nl])
  /\ Part000.main w = (tt, printed w1 ["Token fetch failed: " ++ e ++ nl])
  /\ (wire w1 = wire w
      \/ wire w1 = (wire w ++ [token_request (env w "SPOTIFY_CLIENT_ID")
                                 (env w "SPOTIFY_CLIENT_SECRET")])%list).
Proof.
  intros Hid Hsec He w1.
  apply String.eqb_neq in Hid, Hsec.
  rewrite CmdWeb_main_paths, Part000_main_paths. cbv zeta.
  rewrite Hid, Hsec. cbn [orb]. unfold after_credentials.
  subst w1. rewrite token_world.
  destruct (getAccessToken _ _ w) as [[[token expiresIn] err] w1'] eqn:Eg.
  cbn [fst snd] in He. subst err.
  assert (w1' = snd (getAccessToken (env w "SPOTIFY_CLIENT_ID")
                       (env w "SPOTIFY_CLIENT_SECRET") w)) as Ew by now rewrite Eg.
  rewrite token_world in Ew. rewrite <- Ew.
  split; [reflexivity|]. split; [reflexivity|].
  rewrite Ew. destruct (url_Parse_error _); [now left|now right].
Qed.

Lemma main_token_failure_witness :
  let rt := demo_runtime answer_401 (answer_200 "") in
  let js := demo_json (Ok demo_payload) (Ok (found [one_more_time])) in
  let w := demo_world "an-id" "a-secret" in
  let w1 := snd (@getAccessToken rt js "an-id" "a-secret" w) in
  @CmdWeb.main rt js w
  = (tt, printed w1 ["Token fetch failed: status 401 Unauthorized: invalid_client" ++ nl])
  /\ @Part000.main rt js w
     = (tt, printed w1 ["Token fetch failed: status 401 Unauthorized: invalid_client" ++ nl])
  /\ (wire w1 = wire w
      \/ wire w1 = (wire w ++ [@token_request rt "an-id" "a-secret"])%list).
Proof.
  apply (@main_token_failure (demo_runtime answer_401 (answer_200 ""))
           (demo_json (Ok demo_payload) (Ok (found [one_more_time])))
           (demo_world "an-id" "a-secret")
           "status 401 Unauthorized: invalid_client").
  - discriminate.
  - discriminate.
  - reflexivity.
Defined.

(** X6: with both credentials set and a token obtained,
    [cmd/web/main.go] prints what [part_000] prints and then the cadence
    line, whether the search succeeded or failed: a failed search does not
    stop the cadence estimate. *)
Theorem main_cadence_after_search `{Runtime} `{JSON} (w : World) :
  env w "SPOTIFY_CLIENT_ID" <> "" ->
  env w "SPOTIFY_CLIENT_SECRET" <> "" ->
  snd (fst (getAccessToken (env w "SPOTIFY_CLIENT_ID")
              (env w "SPOTIFY_CLIENT_SECRET") w)) = None ->
  CmdWeb.main w = (tt, printed (snd (Part000.main w)) [cadence_line]).
Proof.
  intros Hid Hsec He.
  apply String.eqb_neq in Hid, Hsec.
  rewrite CmdWeb_main_paths, Part000_main_paths. cbv zeta.
  rewrite Hid, Hsec. cbn [orb snd]. unfold after_credentials.
  destruct (getAccessToken _ _ w) as [[[token expiresIn] err] w1].
  cbn [fst snd] in He. subst err.
  destruct (callSpotifySearchParsed _ _ _ _) as [[e|] w3]; reflexivity.
Qed.

Lemma main_cadence_after_search_witness :
  let rt := demo_runtime (answer_200 "") (Err "context deadline exceeded") in
  let js := demo_json (Ok demo_payload) (Ok (found [one_more_time])) in
  let w := demo_world "an-id" "a-secret" in
  stdout (snd (@Part000.main rt js w))
  = ["token length: 8" ++ nl; "expires_in (sec): 3600" ++ nl;
     "API call failed: context deadline exceeded" ++ nl]
  /\ @CmdWeb.main rt js w = (tt, printed (snd (@Part000.main rt js w)) [@cadence_line rt]).
Proof.
  split; [reflexivity|].
  apply (@main_cadence_after_search
           (demo_runtime (answer_200 "") (Err "context deadline exceeded"))
           (demo_json (Ok demo_payload) (Ok (found [one_more_time])))
           (demo_world "an-id" "a-secret")).
  - discriminate.
  - discriminate.
  - reflexivity.
Defined.



(** X17: an error of the HTTP client is returned as it is: when the
    client fails on the token request (no connection, the deadline of
    the context), [getAccessToken] returns that error with the empty
    token and the expiry 0. *)
Theorem getAccessToken_transport_error `{Runtime} `{JSON}
    (clientID clientSecret : string) (w : World) (req : Request) (e : error) :
  Failed (getAccessToken clientID clientSecret) w req e ->
  getAccessToken clientID clientSecret w = (("", 0, Some e), sent w req).
Proof.
  intros [Hw Ht]. revert Hw.
  rewrite token_paths. cbv zeta.
  destruct (url_Parse_error _) as [e'|].
  { cbn. intros E. now apply app_one_neq in E. }
  destruct (transport (token_request clientID clientSecret)) as [resp|e'] eqn:Et.
  - intros Hw.
    assert (token_request clientID clientSecret = req) as E.
    { destruct (negb _); [|destruct (Decode_payload _)];
        cbn in Hw; now apply app_one_inv in Hw. }
    rewrite E in Et. congruence.
  - cbn. intros Hw. apply app_one_inv in Hw. rewrite Hw in *. congruence.
Qed.

Lemma getAccessToken_transport_error_witness :
  let rt := demo_runtime (Err "context deadline exceeded") (answer_200 "") in
  let js := demo_json (Ok demo_payload) (Ok (found [one_more_time])) in
  let w := demo_world "an-id" "a-secret" in
  @getAccessToken rt js "an-id" "a-secret" w
  = (("", 0, Some "context deadline exceeded"),
     sent w (@token_request rt "an-id" "a-secret")).
Proof.
  apply (@getAccessToken_transport_error
           (demo_runtime (Err "context deadline exceeded") (answer_200 ""))
           (demo_json (Ok demo_payload) (Ok (found [one_more_time])))
           "an-id" "a-secret" (demo_world "an-id" "a-secret")).
  split; reflexivity.
Defined.

(** X18: when the HTTP client fails on the search request,
    [callSpotifySearchParsed] returns that error and prints nothing. *)
Theorem search_transport_error `{Runtime} `{JSON} (token term : string) (limit : Z)
    (w : World) (req : Request) (e : error) :
  Failed (callSpotifySearchParsed token term limit) w req e ->
  callSpotifySearchParsed token term limit w = (Some e, sent w req).
Proof.
  intros [Hw Ht].
  destruct (search_world token term limit w) as (lines & E & _ & Hl).
  revert Hw E Hl. rewrite search_paths. cbv zeta.
  destruct (url_Parse_error _) as [e'|].
  { cbn. intros Hw. now apply app_one_neq in Hw. }
  destruct (transport (search_request token term limit)) as [resp|e'] eqn:Et.
  - intros Hw E _. exfalso.
    assert (wire (sent w (search_request token term limit)) = wire w ++ [req])%list as Ew.
    { rewrite <- Hw, E. reflexivity. }
    cbn in Ew. apply app_one_inv in Ew. rewrite Ew in Et. congruence.
  - cbn. intros Hw _ _. apply app_one_inv in Hw. rewrite Hw in *. congruence.
Qed.

Lemma search_transport_error_witness :
  let rt := demo_runtime (answer_200 "") (Err "context deadline exceeded") in
  let js := demo_json (Ok demo_payload) (Ok (found [one_more_time])) in
  let w := demo_world "an-id" "a-secret" in
  @callSpotifySearchParsed rt js "BQDtoken" "Daft Punk" 5 w
  = (Some "context deadline exceeded",
     sent w (@search_request rt "BQDtoken" "Daft Punk" 5)).
Proof.
  apply (@search_transport_error
           (demo_runtime (answer_200 "") (Err "context deadline exceeded"))
           (demo_json (Ok demo_payload) (Ok (found [one_more_time])))
           "BQDtoken" "Daft Punk" 5 (demo_world "an-id" "a-secret")).
  split; reflexivity.
Defined.

(** The result of a search does not depend on what was printed or sent
    before it. *)
Lemma search_result_any_world `{Runtime} `{JSON} (token term : string) (limit : Z) (w w' : World) :
  fst (callSpotifySearchParsed token term limit w)
  = fst (callSpotifySearchParsed token term limit w').
Proof.
  rewrite !search_paths. cbv zeta.
  destruct (url_Parse_error _); [reflexivity|].
  destruct (transport _) as [resp|e]; [|reflexivity].
  destruct (negb _); [reflexivity|].
  destruct (Decode_searchResp _) as [out|e]; [|reflexivity].
  destruct (Items _); reflexivity.
Qed.

Lemma token_stdout `{Runtime} `{JSON} (clientID clientSecret : string) (w : World) :
  stdout (snd (getAccessToken clientID clientSecret w)) = stdout w.
Proof. rewrite token_world. destruct (url_Parse_error _); reflexivity. Qed.

(** X20: with both credentials set and a token obtained, when the
    search returns an error, either entry point prints the two lines
    about the token and then ["API call failed: <error>"];
    [cmd/web/main.go] prints the cadence line after it. *)
Theorem main_search_failure `{Runtime} `{JSON} (w : World) (token : string)
    (expiresIn : Z) (e : error) :
  env w "SPOTIFY_CLIENT_ID" <> "" ->
  env w "SPOTIFY_CLIENT_SECRET" <> "" ->
  fst (getAccessToken (env w "SPOTIFY_CLIENT_ID") (env w "SPOTIFY_CLIENT_SECRET") w)
  = (token, expiresIn, None) ->
  fst (callSpotifySearchParsed token "Daft Punk" 5 w) = Some e ->
  stdout (snd (Part000.main w))
  = (stdout w ++ [("token length: " ++ Itoa (len token) ++ nl)%string;
                  ("expires_in (sec): " ++ Itoa expiresIn ++ nl)%string;
                  ("API call failed: " ++ e ++ nl)%string])%list
  /\ stdout (snd (CmdWeb.main w))
     = (stdout (snd (Part000.main w)) ++ [cadence_line])%list.
Proof.
  intros Hid Hsec Ht Hs.
  apply String.eqb_neq in Hid, Hsec.
  rewrite CmdWeb_main_paths, Part000_main_paths. cbv zeta.
  rewrite Hid, Hsec. cbn [orb snd]. unfold after_credentials.
  pose proof (token_stdout (env w "SPOTIFY_CLIENT_ID") (env w "SPOTIFY_CLIENT_SECRET") w) as Ho.
  destruct (getAccessToken _ _ w) as [[[token' expiresIn'] err] w1].
  cbn [fst snd] in Ht, Ho. injection Ht as -> -> ->.
  set (w2 := printed w1 _).
  rewrite (search_result_any_world _ _ _ w w2) in Hs.
  destruct (search_world token "Daft Punk" 5 w2) as (lines & El & _ & Hl).
  destruct (callSpotifySearchParsed token "Daft Punk" 5 w2) as [serr w3].
  cbn [fst snd] in Hs, El, Hl. subst serr. rewrite (Hl ltac:(discriminate)) in El.
  split.
  - cbn [snd]. rewrite El. subst w2.
    destruct (url_Parse_error _); cbn [stdout printed sent]; rewrite Ho, ?app_nil_r, <- !app_assoc;
      reflexivity.
  - reflexivity.
Qed.

Lemma main_search_failure_witness :
  let rt := demo_runtime (answer_200 "") (Ok {| StatusCode := 429; Status := "429 Too Many Requests"; Body := "slow down" |}) in
  let js := demo_json (Ok demo_payload) (Ok (found [one_more_time])) in
  let w := demo_world "an-id" "a-secret" in
  stdout (snd (@Part000.main rt js w))
  = ["token length: 8" ++ nl; "expires_in (sec): 3600" ++ nl;
     "API call failed: search failed: 429 Too Many Requests: slow down" ++ nl]
  /\ stdout (snd (@CmdWeb.main rt js w))
     = (stdout (snd (@Part000.main rt js w)) ++ [@cadence_line rt])%list.
Proof.
  apply (@main_search_failure
           (demo_runtime (answer_200 "") (Ok {| StatusCode := 429; Status := "429 Too Many Requests"; Body := "slow down" |}))
           (demo_json (Ok demo_payload) (Ok (found [one_more_time])))
           (demo_world "an-id" "a-secret") "BQDtoken" 3600
           "search failed: 429 Too Many Requests: slow down").
  - discriminate.
  - discriminate.
  - reflexivity.
  - reflexivity.
Defined.

(** X21: the whole output of a successful run. With both credentials
    set, a token obtained and a search answered with a 2xx status and a
    body that decodes, [part_000] prints the two lines about the token
    and then the listing: the one line ["No tracks found."] for an empty
    track list, otherwise one line per track, in the order of the answer;
    [cmd/web/main.go] prints the same and then the cadence line. *)
Theorem main_output `{Runtime} `{JSON} (w : World) (token : string) (expiresIn : Z)
    (resp : Response) (out : searchResp) :
  env w "SPOTIFY_CLIENT_ID" <> "" ->
  env w "SPOTIFY_CLIENT_SECRET" <> "" ->
  fst (getAccessToken (env w "SPOTIFY_CLIENT_ID") (env w "SPOTIFY_CLIENT_SECRET") w)
  = (token, expiresIn, None) ->
  url_Parse_error (URL (search_request token "Daft Punk" 5)) = None ->
  transport (search_request token "Daft Punk" 5) = Ok resp ->
  Z.quot (StatusCode resp) 100 = 2 ->
  Decode_searchResp (Body resp) = Ok out ->
  exists lines,
    stdout (snd (Part000.main w))
    = (stdout w ++ [("token length: " ++ Itoa (len token) ++ nl)%string;
                    ("expires_in (sec): " ++ Itoa expiresIn ++ nl)%string]
       ++ lines)%list
    /\ stdout (snd (CmdWeb.main w))
       = (stdout (snd (Part000.main w)) ++ [cadence_line])%list
    /\ (Items (Tracks out) = [] -> lines = ["No tracks found." ++ nl])
    /\ (Items (Tracks out) <> [] -> List.length lines = List.length (Items (Tracks out)))
    /\ forall (n : nat) (t : track),
         nth_error (Items (Tracks out)) n = Some t ->
         nth_error lines n
         = Some (rank_field (Z.of_nat n + 1) ++ ") "
                 ++ match Artists t with
                    | a :: _ => artist_Name a
                    | [] => "Unknown"
                    end
                 ++ " — " ++ track_Name t ++ nl).
Proof.
  intros Hid Hsec Ht Hu Hr Hst Hd.
  apply String.eqb_neq in Hid, Hsec.
  rewrite CmdWeb_main_paths, Part000_main_paths. cbv zeta.
  rewrite Hid, Hsec. cbn [orb snd]. unfold after_credentials.
  pose proof (token_stdout (env w "SPOTIFY_CLIENT_ID") (env w "SPOTIFY_CLIENT_SECRET") w) as Ho.
  destruct (getAccessToken _ _ w) as [[[token' expiresIn'] err] w1].
  cbn [fst snd] in Ht, Ho. injection Ht as -> -> ->.
  set (w2 := printed w1 _).
  rewrite (search_paths token "Daft Punk" 5 w2). cbv zeta.
  rewrite Hu, Hr, Hst, Hd. cbn [Z.eqb Pos.eqb negb].
  destruct (Items (Tracks out)) as [|t0 l0] eqn:Ei.
  - exists ["No tracks found." ++ nl].
    split; [|split; [reflexivity|split; [reflexivity|split; [congruence|]]]].
    + subst w2. cbn [snd stdout printed sent]. rewrite Ho, <- !app_assoc. reflexivity.
    + intros [|n] t; discriminate.
  - destruct (rangeItems_run (t0 :: l0) 0%nat (sent w2 (search_request token "Daft Punk" 5)))
      as (lines & Er & Hlen & Hn).
    exists lines. rewrite Er.
    split; [|split; [reflexivity|split; [discriminate|split; [intros _; exact Hlen|exact Hn]]]].
    subst w2. cbn [snd stdout printed sent]. rewrite Ho, <- !app_assoc. reflexivity.
Qed.

Lemma main_output_witness :
  let rt := demo_runtime (answer_200 "") (answer_200 "") in
  let js := demo_json (Ok demo_payload) (Ok (found [one_more_time; untitled])) in
  let w := demo_world "an-id" "a-secret" in
  @CmdWeb.main rt js w
  = (tt, printed (sent (sent w (@token_request rt "an-id" "a-secret"))
                    (@search_request rt "BQDtoken" "Daft Punk" 5))
           ["token length: 8" ++ nl; "expires_in (sec): 3600" ++ nl;
            " 1) Daft Punk — One More Time" ++ nl;
            " 2) Unknown — Untitled" ++ nl;
            @cadence_line rt])
  /\ exists lines,
    stdout (snd (@Part000.main rt js w))
    = (stdout w ++ [("token length: 8" ++ nl)%string;
                    ("expires_in (sec): 3600" ++ nl)%string] ++ lines)%list
    /\ stdout (snd (@CmdWeb.main rt js w))
       = (stdout (snd (@Part000.main rt js w)) ++ [@cadence_line rt])%list
    /\ (Items (Tracks (found [one_more_time; untitled])) = [] ->
        lines = ["No tracks found." ++ nl])
    /\ (Items (Tracks (found [one_more_time; untitled])) <> [] ->
        List.length lines = List.length (Items (Tracks (found [one_more_time; untitled]))))
    /\ forall (n : nat) (t : track),
         nth_error (Items (Tracks (found [one_more_time; untitled]))) n = Some t ->
         nth_error lines n
         = Some (rank_field (Z.of_nat n + 1) ++ ") "
                 ++ match Artists t with
                    | a :: _ => artist_Name a
                    | [] => "Unknown"
                    end
                 ++ " — " ++ track_Name t ++ nl).
Proof.
  split; [reflexivity|].
  apply (@main_output (demo_runtime (answer_200 "") (answer_200 ""))
           (demo_json (Ok demo_payload) (Ok (found [one_more_time; untitled])))
           (demo_world "an-id" "a-secret") "BQDtoken" 3600
           {| StatusCode := 200; Status := "200 OK"; Body := "" |}
           (found [one_more_time; untitled])).
  - discriminate.
  - discriminate.
  - reflexivity.
  - reflexivity.
  - reflexivity.
  - reflexivity.
  - reflexivity.
Defined.

(** X22: when the token endpoint answers 200 with a body that does not
    decode, [getAccessToken] returns the error of the decoder with the
    empty token and the expiry 0. *)
Theorem getAccessToken_decode_error `{Runtime} `{JSON} (clientID clientSecret : string)
    (w : World) (req : Request) (resp : Response) (e : error) :
  Answered (getAccessToken clientID clientSecret) w req resp ->
  StatusCode resp = 200 ->
  Decode_payload (Body resp) = Err e ->
  getAccessToken clientID clientSecret w
  = (("", 0, Some e), sent w (token_request clientID clientSecret)).
Proof.
  intros Ha Hs Hd. destruct (token_Answered _ _ _ _ _ Ha) as [Hu Ht].
  rewrite token_paths. cbv zeta. rewrite Hu, Ht, Hs, Hd. reflexivity.
Qed.

Lemma getAccessToken_decode_error_witness :
  let rt := demo_runtime (answer_200 "<html>") (answer_200 "") in
  let js := demo_json (Err "invalid character '<' looking for beginning of value")
              (Ok (found [one_more_time])) in
  let w := demo_world "an-id" "a-secret" in
  @getAccessToken rt js "an-id" "a-secret" w
  = (("", 0, Some "invalid character '<' looking for beginning of value"),
     sent w (@token_request rt "an-id" "a-secret")).
Proof.
  apply (@getAccessToken_decode_error
           (demo_runtime (answer_200 "<html>") (answer_200 ""))
           (demo_json (Err "invalid character '<' looking for beginning of value")
              (Ok (found [one_more_time])))
           "an-id" "a-secret" (demo_world "an-id" "a-secret")
           (@token_request (demo_runtime (answer_200 "<html>") (answer_200 "")) "an-id" "a-secret")
           {| StatusCode := 200; Status := "200 OK"; Body := "<html>" |}).
  - split; reflexivity.
  - reflexivity.
  - reflexivity.
Defined.

(** X23: when the search is answered with a 2xx status and a body that
    does not decode (a 204 with no body, say), [callSpotifySearchParsed]
    returns the error of the decoder and prints nothing, not even
    ["No tracks found."]. *)
Theorem search_decode_error `{Runtime} `{JSON} (token term : string) (limit : Z)
    (w : World) (req : Request) (resp : Response) (e : error) :
  Answered (callSpotifySearchParsed token term limit) w req resp ->
  200 <= StatusCode resp <= 299 ->
  Decode_searchResp (Body resp) = Err e ->
  callSpotifySearchParsed token term limit w
  = (Some e, sent w (search_request token term limit)).
Proof.
  intros Ha Hs Hd. destruct (search_Answered _ _ _ _ _ _ Ha) as [Hu Ht].
  rewrite search_paths. cbv zeta. rewrite Hu, Ht, Hd.
  replace (Z.quot (StatusCode resp) 100) with 2; [reflexivity|].
  apply Z.quot_unique with (r := StatusCode resp - 200); lia.
Qed.

Lemma search_decode_error_witness :
  let rt := demo_runtime (answer_200 "")
              (Ok {| StatusCode := 204; Status := "204 No Content"; Body := "" |}) in
  let js := demo_json (Ok demo_payload) (Err "EOF") in
  let w := demo_world "an-id" "a-secret" in
  @callSpotifySearchParsed rt js "BQDtoken" "Daft Punk" 5 w
  = (Some "EOF", sent w (@search_request rt "BQDtoken" "Daft Punk" 5)).
Proof.
  apply (@search_decode_error
           (demo_runtime (answer_200 "")
              (Ok {| StatusCode := 204; Status := "204 No Content"; Body := "" |}))
           (demo_json (Ok demo_payload) (Err "EOF"))
           "BQDtoken" "Daft Punk" 5 (demo_world "an-id" "a-secret")
           (@search_request (demo_runtime (answer_200 "")
              (Ok {| StatusCode := 204; Status := "204 No Content"; Body := "" |}))
              "BQDtoken" "Daft Punk" 5)
           {| StatusCode := 204; Status := "204 No Content"; Body := "" |}).
  - split; reflexivity.
  - cbn [StatusCode]. lia.
  - reflexivity.
Defined.

(** ** Binary64 rounding *)

Section Rounding.

Local Open Scope R_scope.

Lemma bpow_gt_0 e : 0 < bpow e.
Proof. apply powerRZ_lt. lra. Qed.

Lemma bpow_add a b : bpow (a + b) = bpow a * bpow b.
Proof. apply powerRZ_add. lra. Qed.

Lemma bpow_0 : bpow 0 = 1.
Proof. reflexivity. Qed.

Lemma bpow_1 : bpow 1 = 2.
Proof. unfold bpow. simpl. lra. Qed.

Lemma bpow_m1 : bpow (-1) = / 2.
Proof. unfold bpow. simpl. f_equal. lra. Qed.

Lemma bpow_succ a : bpow (a + 1) = 2 * bpow a.
Proof. rewrite bpow_add, bpow_1. lra. Qed.

Lemma bpow_pred a : bpow (a - 1) = bpow a / 2.
Proof. replace (a - 1)%Z with (a + -1)%Z by lia. rewrite bpow_add, bpow_m1. lra. Qed.

Lemma bpow_nat_ge_1 (n : nat) : 1 <= bpow (Z.of_nat n).
Proof.
  induction n as [|n IH].
  - change (Z.of_nat 0) with 0%Z. rewrite bpow_0. lra.
  - rewrite Nat2Z.inj_succ. unfold Z.succ. rewrite bpow_succ. lra.
Qed.

Lemma bpow_le a b : (a <= b)%Z -> bpow a <= bpow b.
Proof.
  intros Hab. replace b with (a + Z.of_nat (Z.to_nat (b - a)))%Z by lia.
  rewrite bpow_add.
  pose proof (bpow_nat_ge_1 (Z.to_nat (b - a))). pose proof (bpow_gt_0 a). nra.
Qed.

Lemma bpow_lt a b : (a < b)%Z -> bpow a < bpow b.
Proof.
  intros Hab. assert (bpow (a + 1) <= bpow b) by (apply bpow_le; lia).
  rewrite bpow_succ in H. pose proof (bpow_gt_0 a). lra.
Qed.

Lemma bpow_lt_inv a b : bpow a < bpow b -> (a < b)%Z.
Proof.
  intros H. destruct (Z_lt_le_dec a b) as [|Hle]; [assumption|].
  apply bpow_le in Hle. lra.
Qed.

Lemma bpow_IZR n : (0 <= n)%Z -> bpow n = IZR (2 ^ n).
Proof.
  intros Hn. rewrite <- (Z2Nat.id n Hn). generalize (Z.to_nat n). clear.
  induction n as [|n IH].
  - reflexivity.
  - rewrite Nat2Z.inj_succ, Z.pow_succ_r by lia. unfold Z.succ.
    rewrite bpow_succ, mult_IZR, IH. reflexivity.
Qed.

Lemma bpow_opp_r a : bpow a * bpow (- a) = 1.
Proof. rewrite <- bpow_add. replace (a + - a)%Z with 0%Z by lia. apply bpow_0. Qed.

(** digits *)
Lemma digits2_pos_bounds p :
  (2 ^ (Zpos (digits2_pos p) - 1) <= Zpos p < 2 ^ Zpos (digits2_pos p))%Z.
Proof.
  induction p as [p IH|p IH|]; cbn [digits2_pos].
  - rewrite Pos2Z.inj_succ. unfold Z.succ.
    replace (Z.pos (digits2_pos p) + 1 - 1)%Z with (Z.pos (digits2_pos p) - 1 + 1)%Z by lia.
    rewrite !Z.pow_add_r by lia. lia.
  - rewrite Pos2Z.inj_succ. unfold Z.succ.
    replace (Z.pos (digits2_pos p) + 1 - 1)%Z with (Z.pos (digits2_pos p) - 1 + 1)%Z by lia.
    rewrite !Z.pow_add_r by lia. lia.
  - simpl. lia.
Qed.

Lemma Zdigits2_bounds m :
  (0 < m)%Z -> bpow (Zdigits2 m - 1) <= IZR m /\ IZR m + 1 <= bpow (Zdigits2 m).
Proof.
  intros Hm. destruct m as [|p|p]; try lia. cbn [Zdigits2].
  pose proof (digits2_pos_bounds p) as [H1 H2].
  rewrite !bpow_IZR by lia. split.
  - apply IZR_le; assumption.
  - rewrite <- plus_IZR. apply IZR_le. lia.
Qed.

Lemma Zdigits2_nonneg m : (0 <= Zdigits2 m)%Z.
Proof. destruct m; simpl; lia. Qed.

Lemma IZR_xO p : IZR (Zpos p~0) = 2 * IZR (Zpos p).
Proof. rewrite Pos2Z.inj_xO, mult_IZR. reflexivity. Qed.

Lemma IZR_xI p : IZR (Zpos p~1) = 2 * IZR (Zpos p) + 1.
Proof. rewrite Pos2Z.inj_xI, plus_IZR, mult_IZR. reflexivity. Qed.

Lemma inb_bounds y m l : inb y m l -> IZR m <= y < IZR m + 1.
Proof. destruct l as [|[]]; simpl; lra. Qed.

Lemma shr_1_inb y r : inb_rec y r -> inb_rec (y / 2) (shr_1 r).
Proof.
  destruct r as [m r s]. unfold inb_rec. cbn [shr_m].
  intros [Hm H]. destruct m as [|p|p]; [| |lia].
  - destruct r, s; cbn [shr_1 shr_m loc_of_shr_record orb inb] in *; split; try lia; lra.
  - destruct p as [p|p|]; destruct r, s; cbn [shr_1 shr_m loc_of_shr_record orb inb] in *;
      rewrite ?(IZR_xO p), ?(IZR_xI p) in H; split; try lia; lra.
Qed.

Lemma iter_shr_1_inb p : forall y r,
  inb_rec y r -> inb_rec (y * bpow (- Zpos p)) (iter_pos shr_1 p r).
Proof.
  induction p as [p IH|p IH|]; intros y r H; cbn [iter_pos].
  - apply shr_1_inb in H. apply IH in H. apply IH in H.
    replace (y * bpow (- Z.pos p~1)) with (y / 2 * bpow (- Z.pos p) * bpow (- Z.pos p)); [exact H|].
    replace (- Z.pos p~1)%Z with (-1 + (- Z.pos p + - Z.pos p))%Z by lia.
    rewrite !bpow_add, bpow_m1. lra.
  - apply IH in H. apply IH in H.
    replace (y * bpow (- Z.pos p~0)) with (y * bpow (- Z.pos p) * bpow (- Z.pos p)); [exact H|].
    replace (- Z.pos p~0)%Z with (- Z.pos p + - Z.pos p)%Z by lia.
    rewrite !bpow_add. lra.
  - apply shr_1_inb in H. change (bpow (- Z.pos 1)) with (bpow (-1)). now rewrite bpow_m1.
Qed.

Lemma rec_of_loc m l :
  shr_m (shr_record_of_loc m l) = m /\ loc_of_shr_record (shr_record_of_loc m l) = l.
Proof. destruct l as [|[]]; split; reflexivity. Qed.

Lemma shr_inb y m l e n :
  (0 <= m)%Z -> inb y m l -> (0 <= n)%Z ->
  inb_rec (y * bpow (- n)) (fst (shr (shr_record_of_loc m l) e n))
  /\ snd (shr (shr_record_of_loc m l) e n) = (e + n)%Z.
Proof.
  intros Hm H Hn. destruct (rec_of_loc m l) as [E1 E2].
  assert (inb_rec y (shr_record_of_loc m l)) as H0.
  { unfold inb_rec. now rewrite E1, E2. }
  destruct n as [|p|p]; [| |lia]; cbn [shr fst snd].
  - split; [|lia]. replace (y * bpow (- 0)) with y; [exact H0|].
    change (- 0)%Z with 0%Z. rewrite bpow_0. lra.
  - split; [|reflexivity]. now apply iter_shr_1_inb.
Qed.

Lemma IZR_lt_half a b : IZR a + / 2 < IZR b + / 2 -> (a < b)%Z.
Proof. intros H. apply lt_IZR. lra. Qed.

Lemma IZR_lt1 a b : IZR a < IZR b + 1 -> (a <= b)%Z.
Proof. intros H. assert (a < b + 1)%Z; [|lia]. apply lt_IZR. rewrite plus_IZR. lra. Qed.

Lemma IZR_half_lt1 a b : IZR a + / 2 < IZR b + 1 -> (a <= b)%Z.
Proof. intros H. apply IZR_lt1. lra. Qed.

Lemma IZR_half_eq a b : IZR a + / 2 <> IZR b.
Proof.
  intros H. assert (IZR (2 * a + 1) = IZR (2 * b)) as E.
  { rewrite plus_IZR, !mult_IZR. lra. }
  apply eq_IZR in E. lia.
Qed.

Lemma nearest_mono y1 y2 r1 r2 :
  nearest y1 r1 -> nearest y2 r2 -> y1 <= y2 -> (r1 <= r2)%Z.
Proof.
  intros (m1 & l1 & _ & H1 & ->) (m2 & l2 & _ & H2 & ->) Hy.
  assert (forall a b : Z, IZR a < IZR b -> (a < b)%Z) as LT by (intros; now apply lt_IZR).
  assert (forall a b : Z, IZR a <= IZR b -> (a <= b)%Z) as LE by (intros; now apply le_IZR).
  destruct l1 as [|[]], l2 as [|[]]; cbn [inb round_nearest_even] in *;
    repeat match goal with |- context [Z.even ?m] => destruct (Z.even m) eqn:? end;
    try (apply LE; lra);
    try (assert (m1 <= m2)%Z by (apply LE; lra);
         assert (m1 <> m2) by (intros ->; congruence); lia);
    try (assert (m1 < m2)%Z by (first [apply LT; lra | apply IZR_lt_half; lra]); lia);
    try (assert (m1 <= m2)%Z by (first [apply LE; lra | apply IZR_lt1; lra | apply IZR_half_lt1; lra]); lia).
Qed.

Lemma nearest_exact k : (0 <= k)%Z -> nearest (IZR k) k.
Proof. intros Hk. exists k, loc_Exact. repeat split; auto. Qed.

Lemma nearest_unique y r1 r2 : nearest y r1 -> nearest y r2 -> r1 = r2.
Proof.
  intros H1 H2.
  pose proof (nearest_mono y y r1 r2 H1 H2 ltac:(lra)).
  pose proof (nearest_mono y y r2 r1 H2 H1 ltac:(lra)). lia.
Qed.

Lemma nearest_err y r : nearest y r -> y - / 2 <= IZR r <= y + / 2.
Proof.
  intros (m & l & _ & H & ->).
  destruct l as [|[]]; cbn [inb round_nearest_even] in *;
    try destruct (Z.even m); rewrite ?plus_IZR; lra.
Qed.

Lemma nearest_ge y r k : nearest y r -> (0 <= k)%Z -> IZR k <= y -> (k <= r)%Z.
Proof. intros H Hk Hy. exact (nearest_mono _ _ _ _ (nearest_exact k Hk) H Hy). Qed.

Lemma nearest_le y r k : nearest y r -> (0 <= k)%Z -> y <= IZR k -> (r <= k)%Z.
Proof. intros H Hk Hy. exact (nearest_mono _ _ _ _ H (nearest_exact k Hk) Hy). Qed.

(** the exponent of the format *)
Lemma fexp_eq e : fexp prec emax e = Z.max (e - 53) (-1074).
Proof. reflexivity. Qed.

Lemma Zdigits2_le m k : (0 < m < 2 ^ k)%Z -> (0 <= k)%Z -> (Zdigits2 m <= k)%Z.
Proof.
  intros Hm Hk. destruct m as [|p|p]; try lia. cbn [Zdigits2].
  pose proof (digits2_pos_bounds p) as [H1 _].
  destruct (Z_le_gt_dec (Z.pos (digits2_pos p)) k) as [|Hgt]; [assumption|].
  assert (2 ^ k <= 2 ^ (Z.pos (digits2_pos p) - 1))%Z by (apply Z.pow_le_mono_r; lia).
  lia.
Qed.

Lemma Zdigits2_ge m k : (2 ^ (k - 1) <= m)%Z -> (1 <= k)%Z -> (k <= Zdigits2 m)%Z.
Proof.
  intros Hm Hk. assert (0 < 2 ^ (k - 1))%Z by (apply Z.pow_pos_nonneg; lia).
  destruct m as [|p|p]; try lia. cbn [Zdigits2].
  pose proof (digits2_pos_bounds p) as [_ H2].
  destruct (Z_le_gt_dec k (Z.pos (digits2_pos p))) as [|Hgt]; [assumption|].
  assert (2 ^ Z.pos (digits2_pos p) <= 2 ^ (k - 1))%Z by (apply Z.pow_le_mono_r; lia).
  lia.
Qed.

Lemma bpow_shift x a b : x * bpow (- a) * bpow (- b) = x * bpow (- (a + b)).
Proof. replace (- (a + b))%Z with (- a + - b)%Z by lia. rewrite bpow_add. lra. Qed.

Lemma scaled_lt x E k : x < bpow (k + E) -> x * bpow (- E) < bpow k.
Proof.
  intros H. rewrite bpow_add in H.
  apply (Rmult_lt_compat_r (bpow (- E))) in H; [|apply bpow_gt_0].
  now rewrite Rmult_assoc, bpow_opp_r, Rmult_1_r in H.
Qed.

Lemma scaled_ge x E k : bpow (k + E) <= x -> bpow k <= x * bpow (- E).
Proof.
  intros H. rewrite bpow_add in H.
  apply (Rmult_le_compat_r (bpow (- E))) in H; [|left; apply bpow_gt_0].
  now rewrite Rmult_assoc, bpow_opp_r, Rmult_1_r in H.
Qed.

Lemma unscale x e : x * bpow (- e) * bpow e = x.
Proof.
  rewrite Rmult_assoc, (Rmult_comm (bpow (- e))), bpow_opp_r. lra.
Qed.

Lemma shr_fexp_spec x m e l :
  (0 <= m)%Z -> inb (x * bpow (- e)) m l -> (e <= fexp prec emax (Zdigits2 m + e))%Z ->
  let E := fexp prec emax (Zdigits2 m + e) in
  inb_rec (x * bpow (- E)) (fst (shr_fexp prec emax m e l))
  /\ snd (shr_fexp prec emax m e l) = E
  /\ format_exp x E.
Proof.
  intros Hm H He E. unfold shr_fexp. fold E.
  destruct (shr_inb _ m l e (E - e) Hm H ltac:(lia)) as [H1 H2].
  rewrite bpow_shift in H1. replace (e + (E - e))%Z with E in * by lia.
  split; [exact H1|]. split; [exact H2|].
  pose proof (inb_bounds _ _ _ H) as Hb.
  pose proof (bpow_gt_0 e) as He0. pose proof (bpow_opp_r e) as Hee.
  assert (IZR m * bpow e <= x < (IZR m + 1) * bpow e) as Hx.
  { split; rewrite <- (unscale x e).
    - apply Rmult_le_compat_r; lra.
    - apply Rmult_lt_compat_r; lra. }
  unfold format_exp. subst E. rewrite fexp_eq in *.
  destruct (Z.eq_dec m 0) as [->|Hm0].
  - cbn [Zdigits2] in *. split; [lia|]. split.
    + assert (bpow e <= bpow (53 + Z.max (0 + e - 53) (-1074))) by (apply bpow_le; lia).
      simpl in Hx. lra.
    + left. lia.
  - destruct (Zdigits2_bounds m ltac:(lia)) as [D1 D2].
    set (d := Zdigits2 m) in *.
    split; [lia|]. split.
    + assert (bpow (d + e) <= bpow (53 + Z.max (d + e - 53) (-1074))) by (apply bpow_le; lia).
      rewrite bpow_add in H0 at 1. nra.
    + destruct (Z_le_gt_dec (d + e - 53) (-1074)) as [Hle|Hgt]; [left; lia|right].
      replace (52 + Z.max (d + e - 53) (-1074))%Z with ((d - 1) + e)%Z by lia.
      rewrite bpow_add. nra.
Qed.

Lemma shr_nonpos r e n : (n <= 0)%Z -> shr r e n = (r, e).
Proof. destruct n; try reflexivity. lia. Qed.

Lemma rounded_bounds x E r :
  0 <= x -> format_exp x E -> nearest (x * bpow (- E)) r ->
  (0 <= r <= 2 ^ 53)%Z /\ (E = (-1074)%Z \/ (2 ^ 52 <= r)%Z).
Proof.
  intros Hx (HE & Hlt & Hge) Hr.
  pose proof (bpow_gt_0 (- E)).
  repeat split.
  - apply (nearest_ge _ _ 0 Hr); [lia|]. simpl. nra.
  - apply (nearest_le _ _ (2 ^ 53) Hr); [lia|].
    rewrite <- bpow_IZR by lia. left. now apply scaled_lt.
  - destruct Hge as [|Hge]; [now left|right].
    apply (nearest_ge _ _ (2 ^ 52) Hr); [lia|].
    rewrite <- bpow_IZR by lia. now apply scaled_ge.
Qed.

Lemma bra_spec x m e l :
  (0 <= m)%Z -> inb (x * bpow (- e)) m l -> (e <= fexp prec emax (Zdigits2 m + e))%Z ->
  0 <= x ->
  exists E r, format_exp x E /\ nearest (x * bpow (- E)) r
              /\ binary_round_aux prec emax false m e l = canon r E.
Proof.
  intros Hm H He Hx.
  destruct (shr_fexp_spec x m e l Hm H He) as ([Hm1 H1] & H2 & HF).
  set (E := fexp prec emax (Zdigits2 m + e)) in *.
  unfold binary_round_aux.
  destruct (shr_fexp prec emax m e l) as [r1 e1]. cbn [fst snd] in *. subst e1.
  set (r := round_nearest_even (shr_m r1) (loc_of_shr_record r1)).
  assert (nearest (x * bpow (- E)) r) as Hr.
  { exists (shr_m r1), (loc_of_shr_record r1). auto. }
  exists E, r. split; [exact HF|]. split; [exact Hr|].
  destruct (rounded_bounds x E r Hx HF Hr) as [[R0 R1] R2].
  destruct HF as (HE & _ & _).
  unfold shr_fexp. cbn [shr_record_of_loc]. rewrite fexp_eq.
  destruct (Z.eq_dec r 0) as [->|Hr0].
  - cbn [Zdigits2]. rewrite shr_nonpos by lia. reflexivity.
  - destruct (Z_lt_le_dec r (2 ^ 53)) as [Hlt|Hge].
    + pose proof (Zdigits2_le r 53 ltac:(lia) ltac:(lia)).
      rewrite shr_nonpos by lia. cbn [shr_m].
      unfold canon. destruct r as [|p|p]; try lia.
      replace (Z.pos p <? 2 ^ 53)%Z with true by (symmetry; apply Z.ltb_lt; lia).
      reflexivity.
    + assert (r = 2 ^ 53)%Z as -> by lia.
      replace (Z.max (Zdigits2 (2 ^ 53) + E - 53) (-1074) - E)%Z with 1%Z
        by (change (Zdigits2 (2 ^ 53)) with 54%Z; lia).
      reflexivity.
Qed.

Lemma bounded_spec m e :
  bounded prec emax m e = true <->
  ((-1074 <= e <= 971)%Z /\ (Zpos m < 2 ^ 53)%Z /\ (e = (-1074)%Z \/ (2 ^ 52 <= Zpos m)%Z)).
Proof.
  unfold bounded, canonical_mantissa. rewrite andb_true_iff, Z.eqb_eq, Z.leb_le, fexp_eq.
  change (emax - prec)%Z with 971%Z.
  pose proof (digits2_pos_bounds m) as [D1 D2].
  set (d := Z.pos (digits2_pos m)) in *.
  assert (1 <= d)%Z by (unfold d; lia).
  split.
  - intros [Hc He].
    assert (d <= 53)%Z by lia.
    assert (2 ^ d <= 2 ^ 53)%Z by (apply Z.pow_le_mono_r; lia).
    repeat split; try lia.
    destruct (Z.eq_dec e (-1074)); [now left|right].
    assert (d = 53)%Z as Hd by lia. rewrite Hd in D1. exact D1.
  - intros ((He1 & He2) & Hm & Hn). split; [|lia].
    assert (d <= 53)%Z.
    { destruct (Z_le_gt_dec d 53); [assumption|].
      assert (2 ^ 53 <= 2 ^ (d - 1))%Z by (apply Z.pow_le_mono_r; lia). lia. }
    destruct Hn as [->|Hn]; [lia|].
    assert (53 <= d)%Z.
    { destruct (Z_le_gt_dec 53 d); [assumption|].
      assert (2 ^ d <= 2 ^ 52)%Z by (apply Z.pow_le_mono_r; lia). lia. }
    lia.
Qed.

Lemma canon_nonneg x E r :
  0 <= x -> format_exp x E -> nearest (x * bpow (- E)) r -> nonneg_sf (canon r E).
Proof.
  intros Hx HF Hr. destruct (rounded_bounds x E r Hx HF Hr) as [[R0 R1] R2].
  destruct HF as (HE & _ & _).
  unfold nonneg_sf, canon. destruct r as [|p|p]; try lia; [now split|].
  destruct (Z.ltb_spec (Z.pos p) (2 ^ 53)).
  - destruct (Z.leb_spec E 971); [|now split]. split; [|exact I].
    cbn [valid_binary]. apply bounded_spec. lia.
  - destruct (Z.leb_spec (E + 1) 971); [|now split]. split; [|exact I].
    cbn [valid_binary]. apply bounded_spec. lia.
Qed.

Lemma canon_value x E r :
  0 <= x -> format_exp x E -> nearest (x * bpow (- E)) r ->
  SF2R (canon r E) = Rmin (IZR r * bpow E) (bpow 1024).
Proof.
  intros Hx HF Hr. destruct (rounded_bounds x E r Hx HF Hr) as [[R0 R1] R2].
  destruct HF as (HE & _ & _).
  pose proof (bpow_gt_0 E) as HbE.
  unfold canon. destruct r as [|p|p]; try lia.
  - cbn [SF2R]. rewrite Rmult_0_l, Rmin_left; [reflexivity|]. left. apply bpow_gt_0.
  - destruct (Z.ltb_spec (Z.pos p) (2 ^ 53)) as [Hlt|Hge].
    + destruct (Z.leb_spec E 971) as [HE1|HE1]; cbn [SF2R]; rewrite Rmult_1_l.
      * rewrite Rmin_left; [reflexivity|].
        assert (bpow (53 + E) <= bpow 1024) by (apply bpow_le; lia).
        rewrite bpow_add, (bpow_IZR 53) in H by lia.
        apply IZR_lt in Hlt. nra.
      * rewrite Rmin_right; [reflexivity|].
        assert (bpow 1024 <= bpow (52 + E)) by (apply bpow_le; lia).
        rewrite bpow_add, (bpow_IZR 52) in H by lia.
        destruct R2 as [|R2]; [lia|]. apply IZR_le in R2. nra.
    + assert (Z.pos p = 2 ^ 53)%Z as Ep by lia. rewrite Ep.
      assert (IZR (2 ^ 53) * bpow E = bpow (53 + E)) as Ev
        by (rewrite bpow_add, (bpow_IZR 53) by lia; reflexivity).
      rewrite Ev.
      destruct (Z.leb_spec (E + 1) 971) as [HE1|HE1]; cbn [SF2R]; rewrite Rmult_1_l.
      * change (Z.pos (2 ^ 52)) with (2 ^ 52)%Z.
        rewrite <- (bpow_IZR 52), <- bpow_add by lia.
        replace (52 + (E + 1))%Z with (53 + E)%Z by lia.
        rewrite Rmin_left; [reflexivity|]. apply bpow_le. lia.
      * rewrite Rmin_right; [reflexivity|]. apply bpow_le. lia.
Qed.

Lemma bra_Rounds x m e l :
  (0 <= m)%Z -> inb (x * bpow (- e)) m l -> (e <= fexp prec emax (Zdigits2 m + e))%Z ->
  0 <= x ->
  Rounds x (binary_round_aux prec emax false m e l).
Proof.
  intros Hm H He Hx. destruct (bra_spec x m e l Hm H He Hx) as (E & r & HF & Hr & ->).
  split; [exact Hx|]. split; [now apply (canon_nonneg x)|].
  exists E, r. split; [exact HF|]. split; [exact Hr|]. now apply (canon_value x).
Qed.

Lemma format_exp_mono x1 x2 E1 E2 :
  x1 <= x2 -> format_exp x1 E1 -> format_exp x2 E2 -> (E1 <= E2)%Z.
Proof.
  intros Hx (A1 & B1 & C1) (A2 & B2 & C2).
  destruct (Z_le_gt_dec E1 E2) as [|Hgt]; [assumption|].
  destruct C1 as [|C1]; [lia|].
  assert (bpow (53 + E2) <= bpow (52 + E1)) by (apply bpow_le; lia). lra.
Qed.

Lemma Rounds_mono x1 x2 o1 o2 :
  Rounds x1 o1 -> Rounds x2 o2 -> x1 <= x2 -> SF2R o1 <= SF2R o2.
Proof.
  intros (Hx1 & _ & E1 & r1 & F1 & N1 & ->) (Hx2 & _ & E2 & r2 & F2 & N2 & ->) Hx.
  apply Rle_min_compat_r.
  pose proof (format_exp_mono _ _ _ _ Hx F1 F2) as HE.
  destruct (rounded_bounds _ _ _ Hx1 F1 N1) as [[A1 B1] C1].
  destruct (rounded_bounds _ _ _ Hx2 F2 N2) as [[A2 B2] C2].
  destruct (Z.eq_dec E1 E2) as [<-|Hne].
  - assert (r1 <= r2)%Z as Hr.
    { apply (nearest_mono _ _ _ _ N1 N2).
      apply Rmult_le_compat_r; [left; apply bpow_gt_0|exact Hx]. }
    apply Rmult_le_compat_r; [left; apply bpow_gt_0|apply IZR_le; assumption].
  - destruct F1 as (G1 & _ & _). destruct C2 as [|C2]; [lia|].
    apply Rle_trans with (bpow (53 + E1)).
    + rewrite bpow_add, (bpow_IZR 53) by lia.
      apply Rmult_le_compat_r; [left; apply bpow_gt_0|apply IZR_le; assumption].
    + apply Rle_trans with (bpow (52 + E2)); [apply bpow_le; lia|].
      rewrite bpow_add, (bpow_IZR 52) by lia.
      apply Rmult_le_compat_r; [left; apply bpow_gt_0|apply IZR_le; assumption].
Qed.

Lemma Rounds_upper x o :
  Rounds x o -> SF2R o <= x + x * bpow (- 53) + bpow (- 1075).
Proof.
  intros (Hx & _ & E & r & (HE & Hlt & Hge) & N & ->).
  apply Rle_trans with (IZR r * bpow E); [apply Rmin_l|].
  pose proof (nearest_err _ _ N) as [_ Hr].
  pose proof (bpow_gt_0 E) as HbE.
  assert (IZR r * bpow E <= x + bpow (E - 1)) as H1.
  { rewrite bpow_pred.
    apply (Rmult_le_compat_r (bpow E)) in Hr; [|lra].
    rewrite Rmult_plus_distr_r, unscale in Hr. lra. }
  pose proof (bpow_gt_0 (-53)). pose proof (bpow_gt_0 (-1075)).
  destruct Hge as [->|Hge].
  - change (-1074 - 1)%Z with (-1075)%Z in H1. nra.
  - assert (bpow (E - 1) <= x * bpow (- 53)).
    { replace (E - 1)%Z with ((52 + E) + - 53)%Z by lia. rewrite bpow_add.
      apply Rmult_le_compat_r; lra. }
    nra.
Qed.

Lemma Rounds_lower x o :
  Rounds x o -> x < bpow 1024 -> x - x * bpow (- 53) - bpow (- 1075) <= SF2R o.
Proof.
  intros (Hx & _ & E & r & (HE & Hlt & Hge) & N & ->) Hfin.
  pose proof (nearest_err _ _ N) as [Hr _].
  pose proof (bpow_gt_0 E) as HbE.
  pose proof (bpow_gt_0 (-53)). pose proof (bpow_gt_0 (-1075)).
  assert (x - bpow (E - 1) <= IZR r * bpow E) as H1.
  { rewrite bpow_pred.
    apply (Rmult_le_compat_r (bpow E)) in Hr; [|lra].
    unfold Rminus in Hr. rewrite Rmult_plus_distr_r, unscale in Hr. lra. }
  assert (bpow (E - 1) <= x * bpow (- 53) + bpow (- 1075)) as H2.
  { destruct Hge as [->|Hge].
    - change (-1074 - 1)%Z with (-1075)%Z. nra.
    - replace (E - 1)%Z with ((52 + E) + - 53)%Z by lia. rewrite bpow_add.
      apply (Rmult_le_compat_r (bpow (-53))) in Hge; lra. }
  apply Rmin_case; nra.
Qed.

Lemma finite_value_bounds m e :
  bounded prec emax m e = true ->
  0 < IZR (Zpos m) * bpow e < bpow 1024.
Proof.
  intros Hb. apply bounded_spec in Hb. destruct Hb as ((He1 & He2) & Hm & _).
  pose proof (bpow_gt_0 e). split.
  - apply Rmult_lt_0_compat; [apply IZR_lt; lia|assumption].
  - apply Rlt_le_trans with (bpow (53 + e)); [|apply bpow_le; lia].
    rewrite bpow_add, (bpow_IZR 53) by lia.
    apply Rmult_lt_compat_r; [assumption|apply IZR_lt; assumption].
Qed.

Lemma Rounds_exact o :
  nonneg_sf o -> SF2R o < bpow 1024 -> Rounds (SF2R o) o.
Proof.
  intros Ho Hfin. pose proof Ho as [Hv Hs].
  destruct o as [s|[]| |[] m e]; try contradiction.
  - cbn [SF2R]. split; [lra|]. split; [exact Ho|].
    exists (-1074)%Z, 0%Z. split; [|split].
    + split; [lia|]. split; [apply bpow_gt_0|now left].
    + rewrite Rmult_0_l. apply nearest_exact; lia.
    + rewrite Rmult_0_l, Rmin_left; [reflexivity|]. left. apply bpow_gt_0.
  - cbn [SF2R] in Hfin. lra.
  - cbn [valid_binary] in Hv. pose proof (finite_value_bounds m e Hv) as [B1 B2].
    apply bounded_spec in Hv. destruct Hv as ((He1 & He2) & Hm & Hn).
    cbn [SF2R]. rewrite Rmult_1_l. split; [lra|]. split; [exact Ho|].
    pose proof (bpow_gt_0 e).
    exists e, (Zpos m). split; [|split].
    + split; [lia|]. split.
      * rewrite bpow_add, (bpow_IZR 53) by lia.
        apply Rmult_lt_compat_r; [assumption|apply IZR_lt; assumption].
      * destruct Hn as [|Hn]; [now left|right].
        rewrite bpow_add, (bpow_IZR 52) by lia.
        apply Rmult_le_compat_r; [lra|apply IZR_le; assumption].
    + rewrite Rmult_assoc, bpow_opp_r, Rmult_1_r. apply nearest_exact; lia.
    + cbn [SF2R]. rewrite Rmult_1_l, Rmin_left; [reflexivity|lra].
Qed.

Lemma nonneg_value o : nonneg_sf o -> 0 <= SF2R o <= bpow 1024.
Proof.
  intros [Hv Hs]. pose proof (bpow_gt_0 1024).
  destruct o as [s|[]| |[] m e]; try contradiction; cbn [SF2R]; try lra.
  cbn [valid_binary] in Hv. pose proof (finite_value_bounds m e Hv). lra.
Qed.

Lemma nonneg_inf o : nonneg_sf o -> SF2R o = bpow 1024 -> o = S754_infinity false.
Proof.
  intros [Hv Hs] E. pose proof (bpow_gt_0 1024).
  destruct o as [s|[]| |[] m e]; try contradiction; cbn [SF2R] in E; try lra.
  - reflexivity.
  - cbn [valid_binary] in Hv. pose proof (finite_value_bounds m e Hv). lra.
Qed.

Lemma finite_lt_exp m1 e1 m2 e2 :
  bounded prec emax m1 e1 = true -> bounded prec emax m2 e2 = true ->
  (e1 < e2)%Z -> IZR (Zpos m1) * bpow e1 < IZR (Zpos m2) * bpow e2.
Proof.
  intros H1 H2 He. apply bounded_spec in H1, H2.
  destruct H1 as ((A1 & A2) & A3 & _), H2 as ((B1 & B2) & _ & B4).
  destruct B4 as [|B4]; [lia|].
  apply Rlt_le_trans with (bpow (53 + e1)).
  - rewrite bpow_add, (bpow_IZR 53) by lia.
    apply Rmult_lt_compat_r; [apply bpow_gt_0|apply IZR_lt; assumption].
  - apply Rle_trans with (bpow (52 + e2)); [apply bpow_le; lia|].
    rewrite bpow_add, (bpow_IZR 52) by lia.
    apply Rmult_le_compat_r; [left; apply bpow_gt_0|apply IZR_le; assumption].
Qed.

Lemma SFcompare_nonneg o1 o2 :
  nonneg_sf o1 -> nonneg_sf o2 ->
  exists c, SFcompare o1 o2 = Some c
            /\ match c with
               | Lt => SF2R o1 < SF2R o2
               | Eq => SF2R o1 = SF2R o2
               | Gt => SF2R o2 < SF2R o1
               end.
Proof.
  intros [Hv1 Hs1] [Hv2 Hs2]. pose proof (bpow_gt_0 1024).
  destruct o1 as [s1|[]| |[] m1 e1]; try contradiction;
  destruct o2 as [s2|[]| |[] m2 e2]; try contradiction;
    cbn [valid_binary] in *; cbn [SFcompare SF2R];
    try pose proof (finite_value_bounds _ _ Hv1);
    try pose proof (finite_value_bounds _ _ Hv2);
    try (eexists; split; [reflexivity|cbv beta iota; lra]).
  destruct (Z.compare_spec e1 e2) as [->|He|He].
  - rewrite Pos.compare_cont_spec. cbn [Pos.switch_Eq].
    pose proof (bpow_gt_0 e2).
    destruct (Pos.compare_spec m1 m2) as [->|Hm|Hm];
      (eexists; split; [reflexivity|cbv beta iota]).
    + reflexivity.
    + rewrite !Rmult_1_l. apply Rmult_lt_compat_r; [assumption|apply IZR_lt; lia].
    + rewrite !Rmult_1_l. apply Rmult_lt_compat_r; [assumption|apply IZR_lt; lia].
  - eexists; split; [reflexivity|cbv beta iota].
    rewrite !Rmult_1_l. now apply finite_lt_exp.
  - eexists; split; [reflexivity|cbv beta iota].
    rewrite !Rmult_1_l. now apply finite_lt_exp.
Qed.

Lemma SFltb_V o1 o2 :
  nonneg_sf o1 -> nonneg_sf o2 -> (SFltb o1 o2 = true <-> SF2R o1 < SF2R o2).
Proof.
  intros H1 H2. destruct (SFcompare_nonneg o1 o2 H1 H2) as (c & E & Hc).
  unfold SFltb. rewrite E. destruct c; split; intros; try easy; lra.
Qed.

Lemma SFleb_V o1 o2 :
  nonneg_sf o1 -> nonneg_sf o2 -> (SFleb o1 o2 = true <-> SF2R o1 <= SF2R o2).
Proof.
  intros H1 H2. destruct (SFcompare_nonneg o1 o2 H1 H2) as (c & E & Hc).
  unfold SFleb. rewrite E. destruct c; split; intros; try easy; lra.
Qed.

(** operations *)
Lemma fexp_mono a b : (a <= b)%Z -> (fexp prec emax a <= fexp prec emax b)%Z.
Proof. rewrite !fexp_eq. lia. Qed.

Lemma iter_xO m d : Zpos (Pos.iter xO m d) = (Zpos m * 2 ^ Zpos d)%Z.
Proof.
  induction d as [|d IH] using Pos.peano_ind.
  - cbn [Pos.iter]. lia.
  - rewrite Pos.iter_succ, Pos2Z.inj_xO, IH, Pos2Z.inj_succ, Z.pow_succ_r by lia. lia.
Qed.

Lemma shl_align_spec m e e' :
  let '(m', e'') := shl_align m e e' in
  (e'' = Z.min e e' /\ Zpos m' = Zpos m * 2 ^ (e - e''))%Z.
Proof.
  unfold shl_align. destruct (e' - e)%Z as [|d|d] eqn:Ed.
  - split; [lia|]. replace (e - e)%Z with 0%Z by lia. lia.
  - split; [lia|]. replace (e - e)%Z with 0%Z by lia. lia.
  - split; [lia|]. rewrite iter_xO. f_equal. f_equal. lia.
Qed.

Lemma IZR_pow2_scale m k e :
  (0 <= k)%Z -> IZR (m * 2 ^ k) * bpow (e - k) = IZR m * bpow e.
Proof.
  intros Hk. rewrite mult_IZR, <- bpow_IZR by lia.
  replace e with ((e - k) + k)%Z at 2 by lia. rewrite bpow_add. lra.
Qed.

Lemma binary_round_Rounds m e :
  Rounds (IZR (Zpos m) * bpow e) (binary_round prec emax false m e).
Proof.
  unfold binary_round.
  pose proof (shl_align_spec m e (fexp prec emax (Z.pos (digits2_pos m) + e))) as S.
  set (Ef := fexp prec emax (Z.pos (digits2_pos m) + e)) in *.
  destruct (shl_align m e Ef) as [m' e']. destruct S as [S1 S2].
  assert (0 < IZR (Z.pos m) * bpow e) as Hpos.
  { apply Rmult_lt_0_compat; [apply IZR_lt; lia|apply bpow_gt_0]. }
  assert (IZR (Z.pos m') * bpow e' = IZR (Z.pos m) * bpow e) as Ev.
  { rewrite S2. replace e' with (e - (e - e'))%Z at 2 by lia.
    apply IZR_pow2_scale. lia. }
  apply bra_Rounds; [lia| | |lra].
  - cbn [inb]. rewrite <- Ev, Rmult_assoc, bpow_opp_r. lra.
  - apply Z.le_trans with Ef; [lia|]. apply fexp_mono.
    change (Z.pos (digits2_pos m)) with (Zdigits2 (Z.pos m)).
    assert (Zdigits2 (Z.pos m) + (e - e') <= Zdigits2 (Z.pos m'))%Z; [|lia].
    apply Zdigits2_ge; [|pose proof (digits2_pos_bounds m); cbn [Zdigits2]; lia].
    rewrite S2. pose proof (digits2_pos_bounds m) as [D _]. cbn [Zdigits2].
    replace (Z.pos (digits2_pos m) + (e - e') - 1)%Z
      with ((Z.pos (digits2_pos m) - 1) + (e - e'))%Z by lia.
    rewrite Z.pow_add_r by lia.
    apply Z.mul_le_mono_nonneg_r; [apply Z.pow_nonneg; lia|exact D].
Qed.

Lemma Rounds_zero s : Rounds 0 (S754_zero s).
Proof.
  apply (Rounds_exact (S754_zero s)); [now split|]. cbn [SF2R]. apply bpow_gt_0.
Qed.

Lemma binary_normalize_Rounds M e :
  (0 <= M)%Z -> Rounds (IZR M * bpow e) (binary_normalize prec emax M e false).
Proof.
  intros HM. destruct M as [|m|m]; [| |lia]; cbn [binary_normalize].
  - rewrite Rmult_0_l. apply Rounds_zero.
  - apply binary_round_Rounds.
Qed.

Lemma SFmul_Rounds a b :
  nonneg_sf a -> nonneg_sf b -> finite_sf a -> finite_sf b ->
  Rounds (SF2R a * SF2R b) (SFmul prec emax a b).
Proof.
  intros [Hva Hsa] [Hvb Hsb] Hfa Hfb.
  destruct a as [sa|[]| |[] ma ea]; try contradiction;
  destruct b as [sb|[]| |[] mb eb]; try contradiction;
    cbn [SFmul SF2R]; rewrite ?Rmult_0_l, ?Rmult_0_r; try apply Rounds_zero.
  cbn [valid_binary xorb] in *.
  pose proof (finite_value_bounds _ _ Hva) as [Pa _].
  pose proof (finite_value_bounds _ _ Hvb) as [Pb _].
  apply bounded_spec in Hva, Hvb.
  destruct Hva as ((A1 & A2) & A3 & A4), Hvb as ((B1 & B2) & B3 & B4).
  rewrite !Rmult_1_l.
  apply bra_Rounds; [lia| | |nra].
  - cbn [inb]. rewrite Pos2Z.inj_mul, mult_IZR.
    replace (- (ea + eb))%Z with (- ea + - eb)%Z by lia. rewrite bpow_add.
    transitivity (IZR (Z.pos ma) * IZR (Z.pos mb)
                  * (bpow ea * bpow (- ea)) * (bpow eb * bpow (- eb))); [ring|].
    rewrite !bpow_opp_r. ring.
  - rewrite fexp_eq.
    destruct (Z_le_gt_dec (ea + eb) (-1074)) as [|Hgt]; [lia|].
    assert (2 ^ 52 <= Z.pos (ma * mb))%Z as Hm.
    { rewrite Pos2Z.inj_mul. destruct A4 as [->|A4].
      - destruct B4 as [->|B4]; [lia|]. nia.
      - nia. }
    pose proof (Zdigits2_ge _ 53 Hm ltac:(lia)). lia.
Qed.

Lemma aligned_value m e ez :
  (ez <= e)%Z ->
  IZR (Z.pos (fst (shl_align m e ez))) * bpow ez = IZR (Z.pos m) * bpow e.
Proof.
  intros He. pose proof (shl_align_spec m e ez) as S.
  destruct (shl_align m e ez) as [m' e']. destruct S as [S1 S2]. cbn [fst].
  rewrite S2. replace e' with ez by lia.
  replace ez with (e - (e - ez))%Z at 2 by lia. apply IZR_pow2_scale. lia.
Qed.

Lemma SFadd_Rounds a b :
  nonneg_sf a -> nonneg_sf b -> finite_sf a -> finite_sf b ->
  Rounds (SF2R a + SF2R b) (SFadd prec emax a b).
Proof.
  intros Ha Hb Hfa Hfb. pose proof Ha as [Hva Hsa]. pose proof Hb as [Hvb Hsb].
  pose proof (bpow_gt_0 1024) as Hinf.
  destruct a as [sa|[]| |[] ma ea]; try contradiction;
  destruct b as [sb|[]| |[] mb eb]; try contradiction; cbn [SFadd].
  - replace (SF2R (S754_zero sa) + SF2R (S754_zero sb)) with 0 by (cbn [SF2R]; lra).
    destruct sa, sb; apply Rounds_zero.
  - replace (SF2R (S754_zero sa) + SF2R (S754_finite false mb eb))
      with (SF2R (S754_finite false mb eb)) by (cbn [SF2R]; lra).
    apply Rounds_exact; [exact Hb|].
    cbn [valid_binary] in Hvb. pose proof (finite_value_bounds _ _ Hvb). cbn [SF2R]. lra.
  - replace (SF2R (S754_finite false ma ea) + SF2R (S754_zero sb))
      with (SF2R (S754_finite false ma ea)) by (cbn [SF2R]; lra).
    apply Rounds_exact; [exact Ha|].
    cbn [valid_binary] in Hva. pose proof (finite_value_bounds _ _ Hva). cbn [SF2R]. lra.
  - cbn [cond_Zopp SF2R]. rewrite !Rmult_1_l.
    rewrite <- (aligned_value ma ea (Z.min ea eb)), <- (aligned_value mb eb (Z.min ea eb)) by lia.
    rewrite <- Rmult_plus_distr_r, <- plus_IZR.
    apply binary_normalize_Rounds. lia.
Qed.

Lemma SFsub_Rounds a b :
  nonneg_sf a -> nonneg_sf b -> finite_sf a -> finite_sf b -> SF2R b <= SF2R a ->
  Rounds (SF2R a - SF2R b) (SFsub prec emax a b).
Proof.
  intros Ha Hb Hfa Hfb Hle. pose proof Ha as [Hva Hsa]. pose proof Hb as [Hvb Hsb].
  destruct a as [sa|[]| |[] ma ea]; try contradiction;
  destruct b as [sb|[]| |[] mb eb]; try contradiction; cbn [SFsub].
  - replace (SF2R (S754_zero sa) - SF2R (S754_zero sb)) with 0 by (cbn [SF2R]; lra).
    destruct sa, sb; apply Rounds_zero.
  - cbn [valid_binary] in Hvb. pose proof (finite_value_bounds _ _ Hvb).
    cbn [SF2R] in Hle. lra.
  - replace (SF2R (S754_finite false ma ea) - SF2R (S754_zero sb))
      with (SF2R (S754_finite false ma ea)) by (cbn [SF2R]; lra).
    apply Rounds_exact; [exact Ha|].
    cbn [valid_binary] in Hva. pose proof (finite_value_bounds _ _ Hva). cbn [SF2R]. lra.
  - cbn [cond_Zopp SF2R] in *. rewrite !Rmult_1_l in *.
    rewrite <- (aligned_value ma ea (Z.min ea eb)), <- (aligned_value mb eb (Z.min ea eb)) in * by lia.
    unfold Rminus. rewrite Ropp_mult_distr_l, <- Rmult_plus_distr_r.
    rewrite <- opp_IZR, <- plus_IZR.
    apply binary_normalize_Rounds.
    apply le_IZR. pose proof (bpow_gt_0 (Z.min ea eb)).
    apply Rmult_le_reg_r with (bpow (Z.min ea eb)); [assumption|].
    rewrite minus_IZR. lra.
Qed.

Lemma bpow_opp e : bpow (- e) = / bpow e.
Proof.
  pose proof (bpow_opp_r e) as H. pose proof (bpow_gt_0 e).
  apply Rmult_eq_reg_l with (bpow e); [|lra]. rewrite H. field. lra.
Qed.

Lemma new_location_inb q r m2 :
  (0 < m2)%Z -> (0 <= r < m2)%Z ->
  inb (IZR q + IZR r / IZR m2) q (new_location m2 r).
Proof.
  intros Hm [Hr0 Hr].
  assert (0 < IZR m2) as Hm' by (apply IZR_lt; lia).
  set (t := IZR r / IZR m2).
  assert (t * IZR m2 = IZR r) as Et by (unfold t; field; lra).
  assert (forall a b : Z, (a < b)%Z -> IZR a < IZR b) as LT by (intros; now apply IZR_lt).
  unfold new_location.
  destruct (Z.even m2) eqn:Ev; [unfold new_location_even|unfold new_location_odd];
    destruct (Z.eqb_spec r 0) as [->|Hr1].
  - cbn [inb]. assert (t = 0) by (unfold t; field; lra). lra.
  - assert (0 < r)%Z as Hr2 by lia. apply LT in Hr2.
    destruct (Z.compare_spec (2 * r) m2) as [E|L|G]; cbn [inb].
    + apply (f_equal IZR) in E. rewrite mult_IZR in E. nra.
    + apply LT in L. rewrite mult_IZR in L. nra.
    + apply LT in G. apply LT in Hr. rewrite mult_IZR in G. nra.
  - cbn [inb]. assert (t = 0) by (unfold t; field; lra). lra.
  - assert (0 < r)%Z as Hr2 by lia. apply LT in Hr2.
    assert (2 * r <> m2)%Z as Hodd.
    { intros <-. rewrite Z.even_mul in Ev. discriminate. }
    destruct (Z.compare_spec (2 * r + 1) m2) as [E|L|G]; cbn [inb].
    + assert (2 * r < m2)%Z as L by lia. apply LT in L. rewrite mult_IZR in L. nra.
    + assert (2 * r < m2)%Z as L' by lia. apply LT in L'. rewrite mult_IZR in L'. nra.
    + assert (m2 < 2 * r)%Z as G' by lia. apply LT in G'. apply LT in Hr.
      rewrite mult_IZR in G'. nra.
Qed.

Lemma Zdigits2_pos_ge1 q : (0 < q)%Z -> (1 <= Zdigits2 q)%Z.
Proof. destruct q; simpl; lia. Qed.

Lemma div_core_spec m1 e1 m2 e2 :
  let '(q, e', l) := SFdiv_core_binary prec emax (Zpos m1) e1 (Zpos m2) e2 in
  (0 <= q)%Z
  /\ inb (IZR (Zpos m1) * bpow e1 / (IZR (Zpos m2) * bpow e2) * bpow (- e')) q l
  /\ (e' <= fexp prec emax (Zdigits2 q + e'))%Z.
Proof.
  unfold SFdiv_core_binary.
  set (d1 := Zdigits2 (Z.pos m1)). set (d2 := Zdigits2 (Z.pos m2)).
  set (g := (d1 + e1 - (d2 + e2))%Z).
  set (e' := Z.min (fexp prec emax g) (e1 - e2)).
  set (s := (e1 - e2 - e')%Z).
  assert (0 <= s)%Z as Hs by (unfold s, e'; lia).
  set (m' := match s with Z.pos _ => Z.shiftl (Z.pos m1) s | 0%Z => Z.pos m1 | Z.neg _ => 0%Z end).
  assert (m' = Z.pos m1 * 2 ^ s)%Z as Em'.
  { unfold m'. destruct s as [|p|p]; [lia| |lia]. now rewrite Z.shiftl_mul_pow2 by lia. }
  clearbody m'.
  pose proof (Z_div_mod m' (Z.pos m2) ltac:(lia)) as Hdm.
  destruct (Z.div_eucl m' (Z.pos m2)) as [q r]. destruct Hdm as [Hq Hr].
  pose proof (digits2_pos_bounds m1) as [D1a D1b]. fold (Zdigits2 (Z.pos m1)) in D1a, D1b. fold d1 in D1a, D1b.
  pose proof (digits2_pos_bounds m2) as [D2a D2b]. fold (Zdigits2 (Z.pos m2)) in D2a, D2b. fold d2 in D2a, D2b.
  assert (1 <= d1)%Z by (unfold d1; cbn; lia).
  assert (1 <= d2)%Z by (unfold d2; cbn; lia).
  assert (0 < 2 ^ s)%Z as P2s by (apply Z.pow_pos_nonneg; lia).
  assert (0 <= q)%Z as Hq0 by nia.
  split; [exact Hq0|]. split.
  - assert (IZR (Z.pos m1) * bpow e1 / (IZR (Z.pos m2) * bpow e2) * bpow (- e')
            = IZR q + IZR r / IZR (Z.pos m2)) as ->; [|apply new_location_inb; lia].
    assert (0 < IZR (Z.pos m2)) by (apply IZR_lt; lia).
    pose proof (bpow_gt_0 e2). pose proof (bpow_gt_0 e').
    replace e1 with (s + e2 + e')%Z by (unfold s; lia).
    rewrite !bpow_add, bpow_opp, (bpow_IZR s) by lia.
    transitivity (IZR m' / IZR (Z.pos m2)).
    + rewrite Em', mult_IZR. field. lra.
    + rewrite Hq, plus_IZR, mult_IZR. field. lra.
  - assert (2 ^ (d1 - 1 + s) <= m')%Z as Hlow.
    { rewrite Em', Z.pow_add_r by lia. nia. }
    destruct (Z.eq_dec q 0) as [->|Hqn].
    + cbn [Zdigits2]. rewrite fexp_eq.
      destruct (Z_le_gt_dec e' (-1074)) as [|Hgt]; [lia|].
      exfalso.
      assert (d2 <= d1 - 1 + s)%Z as Hd.
      { unfold s. unfold e' in Hgt |- *. rewrite fexp_eq in *. unfold g in *. lia. }
      assert (2 ^ d2 <= 2 ^ (d1 - 1 + s))%Z by (apply Z.pow_le_mono_r; lia).
      lia.
    + apply Z.le_trans with (fexp prec emax g); [unfold e'; lia|].
      apply fexp_mono.
      assert (d1 + s - d2 <= Zdigits2 q)%Z; [|unfold g, s; lia].
      destruct (Z_le_gt_dec (d1 + s - d2) 0) as [Hk|Hk].
      * pose proof (Zdigits2_pos_ge1 q ltac:(lia)). lia.
      * apply Zdigits2_ge; [|lia].
        assert (2 ^ d2 * 2 ^ (d1 + s - d2 - 1) <= m')%Z as Hlow'.
        { rewrite <- Z.pow_add_r by lia.
          replace (d2 + (d1 + s - d2 - 1))%Z with (d1 - 1 + s)%Z by lia. exact Hlow. }
        assert (0 < 2 ^ (d1 + s - d2 - 1))%Z by (apply Z.pow_pos_nonneg; lia).
        nia.
Qed.

Lemma SFdiv_Rounds a b :
  nonneg_sf a -> nonneg_sf b -> finite_sf a -> finite_sf b -> 0 < SF2R b ->
  Rounds (SF2R a / SF2R b) (SFdiv prec emax a b).
Proof.
  intros Ha Hb Hfa Hfb Hpos. pose proof Ha as [Hva Hsa]. pose proof Hb as [Hvb Hsb].
  destruct b as [sb|[]| |[] mb eb]; try contradiction; [cbn [SF2R] in Hpos; lra|].
  destruct a as [sa|[]| |[] ma ea]; try contradiction; cbn [SFdiv].
  - replace (SF2R (S754_zero sa) / SF2R (S754_finite false mb eb)) with 0
      by (cbn [SF2R]; unfold Rdiv; lra).
    apply Rounds_zero.
  - pose proof (div_core_spec ma ea mb eb) as S.
    destruct (SFdiv_core_binary prec emax (Z.pos ma) ea (Z.pos mb) eb) as [[q e'] l].
    destruct S as (Hq & Hin & Hsh).
    cbn [SF2R xorb] in *. rewrite !Rmult_1_l in *.
    cbn [valid_binary] in Hva. pose proof (finite_value_bounds _ _ Hva) as [Pa _].
    apply bra_Rounds; auto.
    left. now apply Rdiv_lt_0_compat.
Qed.

Lemma nonneg_cases f :
  nonnegative f -> (finite f /\ F2R f < bpow 1024) \/ (is_inf f /\ F2R f = bpow 1024).
Proof.
  unfold nonnegative, finite, is_inf, F2R. intros [Hv Hs].
  destruct (Prim2SF f) as [s|[]| |[] m e]; try contradiction.
  - left. split; [exact I|]. cbn [SF2R]. apply bpow_gt_0.
  - right. split; [reflexivity|]. cbn [SF2R]. lra.
  - left. split; [exact I|]. cbn [valid_binary] in Hv.
    pose proof (finite_value_bounds _ _ Hv). cbn [SF2R]. lra.
Qed.

Lemma nonneg_Vf f : nonnegative f -> 0 <= F2R f <= bpow 1024.
Proof. apply nonneg_value. Qed.

Lemma is_inf_nonneg f : is_inf f -> nonnegative f.
Proof. unfold is_inf, nonnegative. intros ->. now split. Qed.

Lemma Rounds_nonneg x f : Rounds x (Prim2SF f) -> nonnegative f.
Proof. now intros (_ & H & _). Qed.

Lemma ltb_nonneg a b : nonnegative a -> nonnegative b -> ((a <? b)%float = true <-> F2R a < F2R b).
Proof. intros Ha Hb. rewrite ltb_spec. now apply SFltb_V. Qed.

Lemma leb_nonneg a b : nonnegative a -> nonnegative b -> ((a <=? b)%float = true <-> F2R a <= F2R b).
Proof. intros Ha Hb. rewrite leb_spec. now apply SFleb_V. Qed.

Lemma ltb_false_nonneg a b : nonnegative a -> nonnegative b -> F2R b <= F2R a -> (a <? b)%float = false.
Proof.
  intros Ha Hb H. destruct (a <? b)%float eqn:E; [|reflexivity].
  apply ltb_nonneg in E; auto. lra.
Qed.

Lemma sf_above_nonneg oa ob :
  nonneg_sf oa -> valid_binary ob = true ->
  (SFltb oa ob = true \/ SFleb oa ob = true) -> nonneg_sf ob.
Proof.
  intros [Hva Hsa] Hvb H. split; [exact Hvb|].
  unfold SFltb, SFleb in H.
  destruct oa as [sa|[]| |[] ma ea]; try contradiction;
  destruct ob as [sb|[]| |[] mb eb]; cbn [SFcompare] in H; try exact I;
    destruct H; discriminate.
Qed.

Lemma ltb_above a b : nonnegative a -> (a <? b)%float = true -> nonnegative b.
Proof.
  intros Ha H. rewrite ltb_spec in H.
  apply (sf_above_nonneg (Prim2SF a)); auto. apply Prim2SF_valid.
Qed.

Lemma leb_above a b : nonnegative a -> (a <=? b)%float = true -> nonnegative b.
Proof.
  intros Ha H. rewrite leb_spec in H.
  apply (sf_above_nonneg (Prim2SF a)); auto. apply Prim2SF_valid.
Qed.

Lemma mul_Rounds a b :
  nonnegative a -> nonnegative b -> finite a -> finite b -> Rounds (F2R a * F2R b) (Prim2SF (a * b)).
Proof. intros. rewrite mul_spec. now apply SFmul_Rounds. Qed.

Lemma add_Rounds a b :
  nonnegative a -> nonnegative b -> finite a -> finite b -> Rounds (F2R a + F2R b) (Prim2SF (a + b)).
Proof. intros. rewrite add_spec. now apply SFadd_Rounds. Qed.

Lemma sub_Rounds a b :
  nonnegative a -> nonnegative b -> finite a -> finite b -> F2R b <= F2R a ->
  Rounds (F2R a - F2R b) (Prim2SF (a - b)).
Proof. intros. rewrite sub_spec. now apply SFsub_Rounds. Qed.

Lemma div_Rounds a b :
  nonnegative a -> nonnegative b -> finite a -> finite b -> 0 < F2R b ->
  Rounds (F2R a / F2R b) (Prim2SF (a / b)).
Proof. intros. rewrite div_spec. now apply SFdiv_Rounds. Qed.

Lemma mul_inf_r a b : nonnegative a -> 0 < F2R a -> is_inf b -> is_inf (a * b).
Proof.
  unfold nonnegative, F2R, is_inf. intros [Hv Hs] Hp Hb. rewrite mul_spec, Hb.
  destruct (Prim2SF a) as [s|[]| |[] m e]; try contradiction; try reflexivity.
  cbn [SF2R] in Hp. lra.
Qed.

Lemma mul_inf_l a b : is_inf a -> nonnegative b -> 0 < F2R b -> is_inf (a * b).
Proof.
  unfold nonnegative, F2R, is_inf. intros Ha [Hv Hs] Hp. rewrite mul_spec, Ha.
  destruct (Prim2SF b) as [s|[]| |[] m e]; try contradiction; try reflexivity.
  cbn [SF2R] in Hp. lra.
Qed.

Lemma div_inf a b : is_inf a -> nonnegative b -> finite b -> 0 < F2R b -> is_inf (a / b).
Proof.
  unfold nonnegative, F2R, is_inf, finite. intros Ha [Hv Hs] Hf Hp. rewrite div_spec, Ha.
  destruct (Prim2SF b) as [s|[]| |[] m e]; try contradiction; try reflexivity.
  cbn [SF2R] in Hp. lra.
Qed.

Lemma add_inf_r a b : nonnegative a -> is_inf b -> is_inf (a + b).
Proof.
  unfold nonnegative, is_inf. intros [Hv Hs] Hb. rewrite add_spec, Hb.
  destruct (Prim2SF a) as [s|[]| |[] m e]; try contradiction; reflexivity.
Qed.

Lemma sub_inf a b : is_inf a -> nonnegative b -> finite b -> is_inf (a - b).
Proof.
  unfold nonnegative, is_inf, finite. intros Ha [Hv Hs] Hf. rewrite sub_spec, Ha.
  destruct (Prim2SF b) as [s|[]| |[] m e]; try contradiction; reflexivity.
Qed.

(** An operation that rounds the monotone [G] on finite operands from
    [lo] on and maps infinity to infinity is monotone. *)
Lemma lift_mono (F : float -> float) (G : R -> R) (lo : R) :
  (forall x, nonnegative x -> finite x -> lo <= F2R x -> Rounds (G (F2R x)) (Prim2SF (F x))) ->
  (forall x, is_inf x -> is_inf (F x)) ->
  (forall u v, lo <= u -> u <= v -> G u <= G v) ->
  forall x y, nonnegative x -> nonnegative y -> lo <= F2R x -> F2R x <= F2R y ->
    nonnegative (F x) /\ nonnegative (F y) /\ F2R (F x) <= F2R (F y).
Proof.
  intros HR HI HG x y Hx Hy Hlo Hxy.
  assert (forall z, nonnegative z -> lo <= F2R z -> nonnegative (F z)) as Hnn.
  { intros z Hz Hl. destruct (nonneg_cases z Hz) as [[Hf _]|[Hi _]].
    - apply (Rounds_nonneg (G (F2R z))). now apply HR.
    - apply is_inf_nonneg. now apply HI. }
  split; [now apply Hnn|]. split; [apply Hnn; [assumption|lra]|].
  destruct (nonneg_cases y Hy) as [[Hfy Hvy]|[Hiy Hvy]].
  - destruct (nonneg_cases x Hx) as [[Hfx Hvx]|[Hix Hvx]]; [|lra].
    apply (Rounds_mono (G (F2R x)) (G (F2R y))).
    + now apply HR.
    + apply HR; auto. lra.
    + now apply HG.
  - apply HI in Hiy. unfold F2R at 2. rewrite Hiy. cbn [SF2R]. rewrite Rmult_1_l.
    apply nonneg_Vf. now apply Hnn.
Qed.

Lemma const_facts c m e :
  Prim2SF c = S754_finite false m e ->
  nonnegative c /\ finite c /\ F2R c = IZR (Zpos m) * bpow e /\ 0 < F2R c.
Proof.
  intros E. pose proof (Prim2SF_valid c) as Hv.
  unfold nonnegative, finite, F2R, nonneg_sf. rewrite E in *.
  cbn [valid_binary] in Hv. pose proof (finite_value_bounds _ _ Hv).
  cbn [SF2R finite_sf]. rewrite Rmult_1_l. repeat split; auto; lra.
Qed.

Lemma zero_facts c s : Prim2SF c = S754_zero s -> nonnegative c /\ finite c /\ F2R c = 0.
Proof.
  intros E. unfold nonnegative, finite, F2R, nonneg_sf. rewrite E. now repeat split.
Qed.

Lemma sf_2_2 : Prim2SF 2.2 = S754_finite false 4953959590107546 (-51).
Proof. vm_compute. reflexivity. Qed.
Lemma sf_1_8 : Prim2SF 1.8 = S754_finite false 8106479329266893 (-52).
Proof. vm_compute. reflexivity. Qed.
Lemma sf_0_25 : Prim2SF 0.25 = S754_finite false 4503599627370496 (-54).
Proof. vm_compute. reflexivity. Qed.
Lemma sf_1_0 : Prim2SF 1.0 = S754_finite false 4503599627370496 (-52).
Proof. vm_compute. reflexivity. Qed.
Lemma sf_1_25 : Prim2SF 1.25 = S754_finite false 5629499534213120 (-52).
Proof. vm_compute. reflexivity. Qed.
Lemma sf_0_414 : Prim2SF 0.414 = S754_finite false 7457960982925541 (-54).
Proof. vm_compute. reflexivity. Qed.
Lemma sf_0_55 : Prim2SF 0.55 = S754_finite false 4953959590107546 (-53).
Proof. vm_compute. reflexivity. Qed.

Lemma bpow_neg_IZR n : (0 <= n)%Z -> bpow (- n) = / IZR (2 ^ n).
Proof. intros Hn. now rewrite bpow_opp, bpow_IZR. Qed.

Lemma Vf_1_0 : F2R 1.0 = 1.
Proof.
  destruct (const_facts _ _ _ sf_1_0) as (_ & _ & -> & _).
  change (-52)%Z with (Z.opp 52). rewrite bpow_neg_IZR by lia.
  change (2 ^ 52)%Z with 4503599627370496%Z. field.
Qed.

Lemma Vf_1_25 : F2R 1.25 = 5 / 4.
Proof.
  destruct (const_facts _ _ _ sf_1_25) as (_ & _ & -> & _).
  change (-52)%Z with (Z.opp 52). rewrite bpow_neg_IZR by lia.
  change (2 ^ 52)%Z with 4503599627370496%Z. lra.
Qed.

Lemma sub_2_2_mono x y :
  nonnegative x -> nonnegative y -> F2R 2.2 <= F2R x -> F2R x <= F2R y ->
  nonnegative (x - 2.2) /\ nonnegative (y - 2.2) /\ F2R (x - 2.2) <= F2R (y - 2.2).
Proof.
  destruct (const_facts _ _ _ sf_2_2) as (Cn & Cf & _ & Cp).
  apply (lift_mono (fun x => (x - 2.2)%float) (fun u => u - F2R 2.2) (F2R 2.2)).
  - intros z Hz Hf Hl. now apply sub_Rounds.
  - intros z Hz. now apply sub_inf.
  - intros u v _ Huv. lra.
Qed.

Lemma div_1_8_mono x y :
  nonnegative x -> nonnegative y -> F2R x <= F2R y ->
  nonnegative (x / 1.8) /\ nonnegative (y / 1.8) /\ F2R (x / 1.8) <= F2R (y / 1.8).
Proof.
  destruct (const_facts _ _ _ sf_1_8) as (Cn & Cf & _ & Cp).
  intros Hx Hy Hxy.
  apply (lift_mono (fun x => (x / 1.8)%float) (fun u => u / F2R 1.8) 0); auto.
  - intros z Hz Hf Hl. now apply div_Rounds.
  - intros z Hz. now apply div_inf.
  - intros u v _ Huv. apply Rmult_le_compat_r; [|exact Huv].
    left. now apply Rinv_0_lt_compat.
  - now apply nonneg_Vf.
Qed.

Lemma mul_0_25_mono x y :
  nonnegative x -> nonnegative y -> F2R x <= F2R y ->
  nonnegative (0.25 * x) /\ nonnegative (0.25 * y) /\ F2R (0.25 * x) <= F2R (0.25 * y).
Proof.
  destruct (const_facts _ _ _ sf_0_25) as (Cn & Cf & _ & Cp).
  intros Hx Hy Hxy.
  apply (lift_mono (fun x => (0.25 * x)%float) (fun u => F2R 0.25 * u) 0); auto.
  - intros z Hz Hf Hl. now apply mul_Rounds.
  - intros z Hz. now apply mul_inf_r.
  - intros u v _ Huv. apply Rmult_le_compat_l; lra.
  - now apply nonneg_Vf.
Qed.

Lemma add_1_0_mono x y :
  nonnegative x -> nonnegative y -> F2R x <= F2R y ->
  nonnegative (1.0 + x) /\ nonnegative (1.0 + y) /\ F2R (1.0 + x) <= F2R (1.0 + y).
Proof.
  destruct (const_facts _ _ _ sf_1_0) as (Cn & Cf & _ & Cp).
  intros Hx Hy Hxy.
  apply (lift_mono (fun x => (1.0 + x)%float) (fun u => F2R 1.0 + u) 0); auto.
  - intros z Hz Hf Hl. now apply add_Rounds.
  - intros z Hz. now apply add_inf_r.
  - intros u v _ Huv. lra.
  - now apply nonneg_Vf.
Qed.

Lemma scale_raw_mono x y :
  nonnegative x -> nonnegative y -> F2R 2.2 <= F2R x -> F2R x <= F2R y ->
  nonnegative (scale_raw x) /\ nonnegative (scale_raw y)
  /\ F2R (scale_raw x) <= F2R (scale_raw y) /\ 1 <= F2R (scale_raw x).
Proof.
  intros Hx Hy Hlo Hxy.
  destruct (sub_2_2_mono x y Hx Hy Hlo Hxy) as (A1 & A2 & A3).
  destruct (div_1_8_mono _ _ A1 A2 A3) as (B1 & B2 & B3).
  destruct (mul_0_25_mono _ _ B1 B2 B3) as (C1 & C2 & C3).
  destruct (add_1_0_mono _ _ C1 C2 C3) as (D1 & D2 & D3).
  unfold scale_raw. split; [exact D1|]. split; [exact D2|]. split; [exact D3|].
  destruct (zero_facts 0%float false ltac:(vm_compute; reflexivity)) as (Z1 & _ & Z3).
  destruct (add_1_0_mono 0%float _ Z1 C1) as (_ & _ & E).
  { rewrite Z3. now apply nonneg_Vf. }
  replace (1.0 + 0)%float with 1.0%float in E by (vm_compute; reflexivity).
  rewrite Vf_1_0 in E. exact E.
Qed.

Lemma stride_scale_value s :
  nonnegative (scale_raw s) ->
  nonnegative (stride_scale s) /\ finite (stride_scale s)
  /\ F2R (stride_scale s) = Rmin (F2R (scale_raw s)) (5 / 4).
Proof.
  intros Hr. destruct (const_facts _ _ _ sf_1_25) as (Cn & Cf & _ & _).
  unfold stride_scale. fold (scale_raw s).
  destruct (1.25 <? scale_raw s)%float eqn:E.
  - apply ltb_nonneg in E; auto. rewrite Vf_1_25 in *.
    split; [exact Cn|]. split; [exact Cf|]. rewrite Rmin_right; lra.
  - assert (F2R (scale_raw s) <= F2R 1.25) as Hle.
    { destruct (Rle_dec (F2R (scale_raw s)) (F2R 1.25)) as [|Hn]; [assumption|].
      apply Rnot_le_lt in Hn. apply ltb_nonneg in Hn; auto. congruence. }
    rewrite Vf_1_25 in Hle. split; [exact Hr|]. split.
    + destruct (nonneg_cases _ Hr) as [[Hf _]|[_ Hv]]; [exact Hf|].
      pose proof (bpow_le 1 1024 ltac:(lia)). rewrite bpow_1 in H. lra.
    + rewrite Rmin_left; lra.
Qed.

Lemma stride_scale_reals (s1 s2 : float) :
  (2.2 <? s1)%float = true -> (s1 <=? s2)%float = true ->
  nonnegative (stride_scale s1) /\ nonnegative (stride_scale s2)
  /\ F2R (stride_scale s1) <= F2R (stride_scale s2)
  /\ 1 <= F2R (stride_scale s1) /\ F2R (stride_scale s2) <= 5 / 4.
Proof.
  intros H1 H2.
  destruct (const_facts _ _ _ sf_2_2) as (Cn & _ & _ & _).
  pose proof (ltb_above _ _ Cn H1) as N1.
  pose proof (leb_above _ _ N1 H2) as N2.
  apply ltb_nonneg in H1; auto. apply leb_nonneg in H2; auto.
  destruct (scale_raw_mono s1 s2 N1 N2 ltac:(lra) H2) as (R1 & R2 & R3 & R4).
  destruct (stride_scale_value s1 R1) as (S1 & _ & V1).
  destruct (stride_scale_value s2 R2) as (S2 & _ & V2).
  split; [exact S1|]. split; [exact S2|]. rewrite V1, V2. split; [|split].
  - apply Rle_min_compat_r. exact R3.
  - apply Rmin_glb; lra.
  - apply Rmin_r.
Qed.

(** X9: above 2.2 m/s the scale factor of the stride never decreases
    when the speed grows, and it stays between 1 and 1.25: for
    [2.2 < s1 <= s2], [1 <= scale s1 <= scale s2 <= 1.25]. *)
Theorem stride_scale_monotone (s1 s2 : float) :
  (2.2 <? s1)%float = true -> (s1 <=? s2)%float = true ->
  (stride_scale s1 <=? stride_scale s2)%float = true
  /\ (1.0 <=? stride_scale s1)%float = true
  /\ (stride_scale s2 <=? 1.25)%float = true.
Proof.
  intros H1 H2.
  destruct (stride_scale_reals s1 s2 H1 H2) as (S1 & S2 & L12 & L1 & L2).
  destruct (const_facts _ _ _ sf_1_25) as (Dn & _ & _ & _).
  destruct (const_facts _ _ _ sf_1_0) as (En & _ & _ & _).
  split; [|split]; apply leb_nonneg; auto; rewrite ?Vf_1_0, ?Vf_1_25; lra.
Qed.

Lemma stride_scale_monotone_witness :
  (stride_scale 3 <=? stride_scale 3.5)%float = true
  /\ (1.0 <=? stride_scale 3)%float = true
  /\ (stride_scale 3.5 <=? 1.25)%float = true.
Proof. apply (stride_scale_monotone 3 3.5); vm_compute; reflexivity. Defined.

Lemma SFcompare_antisym a b :
  SFcompare b a = match SFcompare a b with Some c => Some (CompOpp c) | None => None end.
Proof.
  destruct a as [sa|sa| |sa ma ea], b as [sb|sb| |sb mb eb]; cbn [SFcompare];
    try reflexivity;
    try (destruct sa; reflexivity); try (destruct sb; reflexivity);
    try (destruct sa, sb; reflexivity).
  destruct sa, sb; try reflexivity;
    rewrite (Z.compare_antisym ea eb); destruct (ea ?= eb)%Z; cbn [CompOpp];
    try reflexivity; f_equal.
  - pose proof (Pos.compare_cont_antisym ma mb Eq) as H. cbn [CompOpp] in H.
    now rewrite <- H.
  - pose proof (Pos.compare_cont_antisym ma mb Eq) as H. cbn [CompOpp] in H.
    now rewrite <- H.
Qed.

Lemma leb_not_ltb a b : (a <=? b)%float = true -> (b <? a)%float = false.
Proof.
  rewrite leb_spec, ltb_spec. unfold SFleb, SFltb.
  rewrite (SFcompare_antisym (Prim2SF a) (Prim2SF b)).
  destruct (SFcompare (Prim2SF a) (Prim2SF b)) as [[]|]; cbn [CompOpp]; congruence.
Qed.

(** The cap is not below the unscaled stride. *)
Lemma base_below_cap h :
  nonnegative h -> nonnegative (0.414 * h) /\ nonnegative (0.55 * h) /\ F2R (0.414 * h) <= F2R (0.55 * h).
Proof.
  intros Hh.
  destruct (const_facts _ _ _ sf_0_414) as (An & Af & Av & Ap).
  destruct (const_facts _ _ _ sf_0_55) as (Bn & Bf & Bv & Bp).
  assert (F2R 0.414 <= F2R 0.55) as Hc.
  { apply (proj1 (leb_nonneg _ _ An Bn)). vm_compute. reflexivity. }
  destruct (nonneg_cases h Hh) as [[Hf Hv]|[Hi Hv]].
  - pose proof (mul_Rounds 0.414 h An Hh Af Hf) as R1.
    pose proof (mul_Rounds 0.55 h Bn Hh Bf Hf) as R2.
    split; [exact (Rounds_nonneg _ _ R1)|]. split; [exact (Rounds_nonneg _ _ R2)|].
    apply (Rounds_mono _ _ _ _ R1 R2).
    apply Rmult_le_compat_r; [apply nonneg_Vf; exact Hh|exact Hc].
  - pose proof (mul_inf_r 0.414 h An Ap Hi) as I1.
    pose proof (mul_inf_r 0.55 h Bn Bp Hi) as I2.
    split; [now apply is_inf_nonneg|]. split; [now apply is_inf_nonneg|].
    unfold F2R. rewrite I1, I2. lra.
Qed.

(** X8: for a height that is not negative and a speed of at most
    2.2 m/s the stride returned is [0.414 * height]: no scale is applied
    and the clamp does not change it. *)
Theorem BPMEstimateSimple_walking (h s : float) :
  (0 <=? h)%float = true -> (s <=? 2.2)%float = true ->
  snd (BPMEstimateSimple h s) = (0.414 * h)%float.
Proof.
  intros Hh Hs. unfold BPMEstimateSimple. rewrite (leb_not_ltb _ _ Hs). cbn [snd].
  destruct (zero_facts 0%float false ltac:(vm_compute; reflexivity)) as (Z1 & _ & _).
  pose proof (leb_above _ _ Z1 Hh) as Nh.
  destruct (base_below_cap h Nh) as (N1 & N2 & Hle).
  now rewrite (ltb_false_nonneg _ _ N2 N1 Hle).
Qed.

Lemma BPMEstimateSimple_walking_witness :
  snd (BPMEstimateSimple 1.75 1.4) = (0.414 * 1.75)%float.
Proof. apply (BPMEstimateSimple_walking 1.75 1.4); vm_compute; reflexivity. Defined.

Lemma stride_scale_range s :
  (2.2 <? s)%float = true ->
  nonnegative (stride_scale s) /\ finite (stride_scale s) /\ 1 <= F2R (stride_scale s) <= 5 / 4.
Proof.
  intros H. destruct (const_facts _ _ _ sf_2_2) as (Cn & _ & _ & _).
  pose proof (ltb_above _ _ Cn H) as N. apply ltb_nonneg in H; auto.
  destruct (scale_raw_mono s s N N ltac:(lra) ltac:(lra)) as (R1 & _ & _ & R4).
  destruct (stride_scale_value s R1) as (S1 & S2 & ->).
  split; [exact S1|]. split; [exact S2|]. split.
  - apply Rmin_glb; lra.
  - apply Rmin_r.
Qed.

Lemma tiny_ok_all (n : nat) : (n < 20)%nat -> tiny_ok (Pos.of_nat n) = true.
Proof.
  intros Hn. do 20 (destruct n as [|n]; [vm_compute; reflexivity|]). lia.
Qed.

Lemma tiny_cases h :
  nonnegative h -> 0 < F2R h -> F2R h < 40 * bpow (-1075) ->
  exists m, (Pos.to_nat m < 20)%nat /\ h = tiny m.
Proof.
  unfold nonnegative, F2R. intros [Hv Hs] Hp Hlt.
  pose proof (SF2Prim_Prim2SF h) as Eh.
  destruct (Prim2SF h) as [s|[]| |[] m e]; try contradiction; cbn [SF2R] in *; try lra.
  - pose proof (bpow_le (-1075 + 6) 1024 ltac:(lia)) as H6.
    rewrite bpow_add, (bpow_IZR 6) in H6 by lia. change (2 ^ 6)%Z with 64%Z in H6.
    pose proof (bpow_gt_0 (-1075)). lra.
  - cbn [valid_binary] in Hv. apply bounded_spec in Hv.
    destruct Hv as ((E1 & E2) & M1 & M2).
    rewrite Rmult_1_l in *.
    assert (bpow (-1074) = 2 * bpow (-1075)) as E74.
    { change (-1074)%Z with (-1075 + 1)%Z. apply bpow_succ. }
    pose proof (bpow_gt_0 (-1075)) as U.
    assert (e = (-1074)%Z) as ->.
    { destruct M2 as [|M2]; [assumption|]. exfalso.
      assert (bpow (-1074) <= bpow e) as H by (apply bpow_le; lia).
      rewrite E74 in H.
      apply IZR_le in M2. change (2 ^ 52)%Z with 4503599627370496%Z in M2.
      apply (Rmult_le_compat_r (bpow e)) in M2; [|left; apply bpow_gt_0]. lra. }
    exists m. split; [|now rewrite <- Eh].
    assert (Z.pos m < 20)%Z; [|lia]. apply lt_IZR. rewrite E74 in Hlt.
    apply Rmult_lt_reg_r with (2 * bpow (-1075)); lra.
Qed.

Lemma Vf_0_414 : F2R 0.414 = 7457960982925541 / 18014398509481984.
Proof.
  destruct (const_facts _ _ _ sf_0_414) as (_ & _ & -> & _).
  change (-54)%Z with (Z.opp 54). rewrite bpow_neg_IZR by lia.
  change (2 ^ 54)%Z with 18014398509481984%Z. lra.
Qed.

Lemma Vf_0_55 : F2R 0.55 = 4953959590107546 / 9007199254740992.
Proof.
  destruct (const_facts _ _ _ sf_0_55) as (_ & _ & -> & _).
  change (-53)%Z with (Z.opp 53). rewrite bpow_neg_IZR by lia.
  change (2 ^ 53)%Z with 9007199254740992%Z. lra.
Qed.

(** The longest stride before the clamp, at the scale 1.25, is within the cap. *)
Lemma longest_below_cap h :
  nonnegative h -> finite h ->
  nonnegative (0.414 * h) /\ finite (0.414 * h)
  /\ nonnegative (0.414 * h * 1.25) /\ nonnegative (0.55 * h)
  /\ F2R (0.414 * h * 1.25) <= F2R (0.55 * h).
Proof.
  intros Hh Hf.
  destruct (const_facts _ _ _ sf_0_414) as (An & Af & _ & Ap).
  destruct (const_facts _ _ _ sf_0_55) as (Bn & Bf & _ & Bp).
  destruct (const_facts _ _ _ sf_1_25) as (Cn & Cf & _ & Cp).
  pose proof (mul_Rounds 0.414 h An Hh Af Hf) as RB.
  pose proof (mul_Rounds 0.55 h Bn Hh Bf Hf) as RM.
  pose proof (Rounds_nonneg _ _ RB) as NB.
  pose proof (Rounds_upper _ _ RB) as UB. fold (F2R (0.414 * h)) in UB.
  pose proof (nonneg_Vf h Hh) as [Hh0 Hh1].
  destruct (nonneg_cases h Hh) as [[_ Hhf]|[Hi _]];
    [|unfold finite in Hf; rewrite Hi in Hf; contradiction].
  pose proof (bpow_gt_0 (-1075)) as U.
  assert (bpow (-53) = / 9007199254740992) as E53.
  { change (-53)%Z with (Z.opp 53). rewrite bpow_neg_IZR by lia. reflexivity. }
  rewrite Vf_0_414, E53 in UB.
  assert (bpow (-1075) < bpow 1024 / 4) as U2.
  { assert (bpow (-1075) <= bpow 1021) by (apply bpow_le; lia).
    change 1024%Z with (1021 + 1 + 1 + 1)%Z. rewrite !bpow_succ.
    pose proof (bpow_gt_0 1021). lra. }
  assert (finite (0.414 * h)) as FB.
  { destruct (nonneg_cases _ NB) as [[F _]|[_ Ev]]; [exact F|]. rewrite Ev in UB. lra. }
  pose proof (mul_Rounds (0.414 * h) 1.25 NB Cn FB Cf) as RL.
  split; [exact NB|]. split; [exact FB|].
  split; [exact (Rounds_nonneg _ _ RL)|]. split; [exact (Rounds_nonneg _ _ RM)|].
  destruct (Rle_lt_dec (40 * bpow (-1075)) (F2R h)) as [Hbig|Hsmall].
  - apply (Rounds_mono _ _ _ _ RL RM). rewrite Vf_1_25, Vf_0_55. lra.
  - destruct (Rle_lt_dec (F2R h) 0) as [Hz|Hp].
    + assert (F2R h = 0) as E0 by lra.
      apply (Rounds_mono _ _ _ _ RL RM).
      pose proof (Rounds_mono _ _ _ _ RB (Rounds_zero false)) as HB0.
      rewrite E0, Rmult_0_r in HB0. specialize (HB0 ltac:(lra)).
      fold (F2R (0.414 * h)) in HB0. cbn [SF2R] in HB0.
      pose proof (nonneg_Vf _ NB). rewrite E0. rewrite Vf_1_25. lra.
    + destruct (tiny_cases h Hh Hp Hsmall) as (m & Hm & ->).
      pose proof (tiny_ok_all (Pos.to_nat m) Hm) as Hok.
      rewrite Pos2Nat.id in Hok. unfold tiny_ok in Hok.
      apply negb_true_iff in Hok.
      destruct (Rle_lt_dec (F2R (0.414 * tiny m * 1.25)) (F2R (0.55 * tiny m)))
        as [|Hgt]; [assumption|].
      apply ltb_nonneg in Hgt;
        [congruence|exact (Rounds_nonneg _ _ RM)|exact (Rounds_nonneg _ _ RL)].
Qed.

Lemma clamp_idle h s :
  nonnegative h ->
  (0.55 * h <? (if 2.2 <? s then 0.414 * h * stride_scale s else 0.414 * h))%float = false.
Proof.
  intros Hh.
  destruct (const_facts _ _ _ sf_0_414) as (An & Af & _ & Ap).
  destruct (const_facts _ _ _ sf_0_55) as (Bn & Bf & _ & Bp).
  destruct (const_facts _ _ _ sf_1_25) as (Cn & Cf & _ & Cp).
  destruct (2.2 <? s)%float eqn:Es.
  - destruct (stride_scale_range s Es) as (Sn & Sf & S1 & S2).
    destruct (nonneg_cases h Hh) as [[Hf _]|[Hi _]].
    + destruct (longest_below_cap h Hh Hf) as (NB & FB & NL & NM & Hle).
      pose proof (mul_Rounds _ _ NB Sn FB Sf) as RL.
      pose proof (mul_Rounds _ _ NB Cn FB Cf) as RC.
      apply ltb_false_nonneg; [exact NM|exact (Rounds_nonneg _ _ RL)|].
      apply Rle_trans with (F2R (0.414 * h * 1.25)); [|exact Hle].
      apply (Rounds_mono _ _ _ _ RL RC).
      apply Rmult_le_compat_l; [apply nonneg_Vf; exact NB|]. rewrite Vf_1_25. lra.
    + pose proof (mul_inf_r 0.414 h An Ap Hi) as IB.
      pose proof (mul_inf_l _ (stride_scale s) IB Sn ltac:(lra)) as IL.
      pose proof (mul_inf_r 0.55 h Bn Bp Hi) as IM.
      apply ltb_false_nonneg; [now apply is_inf_nonneg|now apply is_inf_nonneg|].
      unfold F2R. rewrite IL, IM. lra.
  - destruct (base_below_cap h Hh) as (N1 & N2 & Hle).
    now apply ltb_false_nonneg.
Qed.

(** X11: for a height that is not negative the clamp of lines 158-162
    never changes the stride, whatever the speed (a NaN included):
    [BPMEstimateSimple] returns what it returns without the clamp. *)
Theorem BPMEstimateSimple_clamp_idle (h s : float) :
  (0 <=? h)%float = true ->
  BPMEstimateSimple h s = BPMEstimateUnclamped h s.
Proof.
  intros Hh.
  destruct (zero_facts 0%float false ltac:(vm_compute; reflexivity)) as (Z1 & _ & _).
  pose proof (clamp_idle h s (leb_above _ _ Z1 Hh)) as E.
  unfold BPMEstimateSimple, BPMEstimateUnclamped. cbv zeta.
  unfold stride_scale in E. cbv zeta in E.
  destruct (2.2 <? s)%float; rewrite E; reflexivity.
Qed.

Lemma BPMEstimateSimple_clamp_idle_witness :
  BPMEstimateSimple 1.75 2.68224 = BPMEstimateUnclamped 1.75 2.68224.
Proof. apply (BPMEstimateSimple_clamp_idle 1.75 2.68224); vm_compute; reflexivity. Defined.

Lemma nonneg_sf_inj oa ob :
  nonneg_sf oa -> nonneg_sf ob -> SF2R oa = SF2R ob -> 0 < SF2R oa -> oa = ob.
Proof.
  intros [Hva Hsa] [Hvb Hsb] E Hp. pose proof (bpow_gt_0 1024).
  destruct oa as [sa|[]| |[] ma ea]; try contradiction;
  destruct ob as [sb|[]| |[] mb eb]; try contradiction;
    cbn [SF2R valid_binary] in *;
    try pose proof (finite_value_bounds _ _ Hva);
    try pose proof (finite_value_bounds _ _ Hvb); try lra; try reflexivity.
  rewrite !Rmult_1_l in *.
  destruct (Z.compare_spec ea eb) as [->|Hlt|Hgt].
  - apply Rmult_eq_reg_r in E; [|pose proof (bpow_gt_0 eb); lra].
    apply eq_IZR in E. congruence.
  - pose proof (finite_lt_exp _ _ _ _ Hva Hvb Hlt). lra.
  - pose proof (finite_lt_exp _ _ _ _ Hvb Hva Hgt). lra.
Qed.

Lemma Vf_inj a b : nonnegative a -> nonnegative b -> F2R a = F2R b -> 0 < F2R a -> a = b.
Proof.
  intros Ha Hb E Hp. apply Prim2SF_inj. now apply nonneg_sf_inj.
Qed.



(** X16: a zero height is not refused: for every speed above 0 the
    stride returned is 0 and the cadence, a division by that stride, is
    [+Inf]. *)
Theorem BPMEstimateSimple_zero_height (s : float) :
  (0 <? s)%float = true ->
  BPMEstimateSimple 0 s = (infinity, 0%float).
Proof.
  intros Hs.
  destruct (zero_facts 0%float false ltac:(vm_compute; reflexivity)) as (Z1 & _ & Z3).
  pose proof (ltb_above _ _ Z1 Hs) as Sn.
  apply ltb_nonneg in Hs; auto. rewrite Z3 in Hs.
  assert (forall c, nonnegative c -> finite c -> 0 < F2R c -> (0 * c)%float = 0%float) as Hz.
  { intros c [_ Hc] Hf Hp. apply Prim2SF_inj. rewrite mul_spec. unfold finite, F2R in *.
    change (Prim2SF 0) with (S754_zero false).
    destruct (Prim2SF c) as [sc|[]| |[] mc ec]; try contradiction; try reflexivity.
    cbn [SF2R] in Hp. lra. }
  assert ((s / 0)%float = infinity) as Hd.
  { apply Prim2SF_inj. rewrite div_spec. destruct Sn as [_ Sn]. unfold F2R in Hs.
    change (Prim2SF 0) with (S754_zero false).
    change (Prim2SF infinity) with (S754_infinity false).
    destruct (Prim2SF s) as [ss|[]| |[] ms es]; try contradiction; try reflexivity.
    cbn [SF2R] in Hs. lra. }
  assert (snd (BPMEstimateSimple 0 s) = 0%float) as HL.
  { unfold BPMEstimateSimple. cbv zeta. cbn [snd].
    replace (0.414 * 0)%float with 0%float by (vm_compute; reflexivity).
    replace (0.55 * 0)%float with 0%float by (vm_compute; reflexivity).
    destruct (2.2 <? s)%float eqn:Es.
    - destruct (stride_scale_range s Es) as (Cn & Cf & Cp & _).
      unfold stride_scale in Cn, Cf, Cp. cbv zeta in Cn, Cf, Cp.
      rewrite (Hz _ Cn Cf ltac:(lra)). reflexivity.
    - reflexivity. }
  assert (BPMEstimateSimple 0 s
          = ((s / snd (BPMEstimateSimple 0 s) * 60.0)%float, snd (BPMEstimateSimple 0 s)))
    as E by reflexivity.
  rewrite E, HL, Hd. reflexivity.
Qed.

Lemma BPMEstimateSimple_zero_height_witness :
  BPMEstimateSimple 0 3 = (infinity, 0%float).
Proof. apply (BPMEstimateSimple_zero_height 3); vm_compute; reflexivity. Defined.

Lemma leb_true_nonneg a b : nonnegative a -> nonnegative b -> F2R a <= F2R b -> (a <=? b)%float = true.
Proof. intros Ha Hb H. now apply leb_nonneg. Qed.

Lemma ltb_false_inv a b : nonnegative a -> nonnegative b -> (a <? b)%float = false -> F2R b <= F2R a.
Proof.
  intros Ha Hb H. destruct (Rle_lt_dec (F2R b) (F2R a)) as [|Hlt]; [assumption|].
  apply ltb_nonneg in Hlt; auto. congruence.
Qed.

Lemma stride_is_pre h s :
  (0 <=? h)%float = true -> snd (BPMEstimateSimple h s) = stride_pre h s.
Proof.
  intros Hh.
  destruct (zero_facts 0%float false ltac:(vm_compute; reflexivity)) as (Z1 & _ & _).
  pose proof (clamp_idle h s (leb_above _ _ Z1 Hh)) as E.
  unfold BPMEstimateSimple, stride_pre in *. unfold stride_scale in *. cbv zeta in *.
  cbn [snd]. destruct (2.2 <? s)%float; now rewrite E.
Qed.

Lemma mul_right_mono c x y :
  nonnegative c -> finite c -> 0 < F2R c -> nonnegative x -> nonnegative y -> F2R x <= F2R y ->
  nonnegative (x * c) /\ nonnegative (y * c) /\ F2R (x * c) <= F2R (y * c).
Proof.
  intros Cn Cf Cp Hx Hy Hxy.
  apply (lift_mono (fun x => (x * c)%float) (fun u => u * F2R c) 0); auto.
  - intros z Hz Hf Hl. now apply mul_Rounds.
  - intros z Hz. now apply mul_inf_l.
  - intros u v _ Huv. apply Rmult_le_compat_r; lra.
  - now apply nonneg_Vf.
Qed.

Lemma mul_left_mono c x y :
  nonnegative c -> finite c -> nonnegative x -> nonnegative y -> finite x -> finite y -> F2R x <= F2R y ->
  nonnegative (c * x) /\ nonnegative (c * y) /\ F2R (c * x) <= F2R (c * y).
Proof.
  intros Cn Cf Hx Hy Fx Fy Hxy.
  pose proof (mul_Rounds c x Cn Hx Cf Fx) as R1.
  pose proof (mul_Rounds c y Cn Hy Cf Fy) as R2.
  split; [exact (Rounds_nonneg _ _ R1)|]. split; [exact (Rounds_nonneg _ _ R2)|].
  apply (Rounds_mono _ _ _ _ R1 R2).
  apply Rmult_le_compat_l; [apply nonneg_Vf; exact Cn|exact Hxy].
Qed.

Lemma mul_0_414_mono x y :
  nonnegative x -> nonnegative y -> F2R x <= F2R y ->
  nonnegative (0.414 * x) /\ nonnegative (0.414 * y) /\ F2R (0.414 * x) <= F2R (0.414 * y).
Proof.
  destruct (const_facts _ _ _ sf_0_414) as (Cn & Cf & _ & Cp).
  intros Hx Hy Hxy.
  apply (lift_mono (fun x => (0.414 * x)%float) (fun u => F2R 0.414 * u) 0); auto.
  - intros z Hz Hf Hl. now apply mul_Rounds.
  - intros z Hz. now apply mul_inf_r.
  - intros u v _ Huv. apply Rmult_le_compat_l; lra.
  - now apply nonneg_Vf.
Qed.

Lemma stride_pre_facts h s :
  nonnegative h ->
  nonnegative (stride_pre h s) /\ nonnegative (0.414 * h) /\ nonnegative (0.55 * h)
  /\ F2R (0.414 * h) <= F2R (stride_pre h s) /\ F2R (stride_pre h s) <= F2R (0.55 * h).
Proof.
  intros Hh. destruct (base_below_cap h Hh) as (NB & NM & HBM).
  pose proof (clamp_idle h s Hh) as Hc. fold (stride_pre h s) in Hc.
  unfold stride_pre in *. destruct (2.2 <? s)%float eqn:Es.
  - destruct (stride_scale_range s Es) as (Sn & Sf & S1 & S2).
    destruct (const_facts _ _ _ sf_1_0) as (On & Of & _ & Op).
    assert (nonnegative (0.414 * h * stride_scale s)
            /\ F2R (0.414 * h) <= F2R (0.414 * h * stride_scale s)) as [NL HBL].
    { destruct (nonneg_cases _ NB) as [[FB HB]|[IB HB]].
      - pose proof (mul_Rounds _ _ NB Sn FB Sf) as RL.
        split; [exact (Rounds_nonneg _ _ RL)|].
        apply (Rounds_mono _ _ _ _ (Rounds_exact _ NB HB) RL).
        fold (F2R (0.414 * h)). pose proof (nonneg_Vf _ NB). nra.
      - pose proof (mul_inf_l _ _ IB Sn ltac:(lra)) as IL.
        split; [now apply is_inf_nonneg|]. unfold F2R. rewrite IL, IB. lra. }
    split; [exact NL|]. split; [exact NB|]. split; [exact NM|]. split; [exact HBL|].
    now apply ltb_false_inv.
  - split; [exact NB|]. split; [exact NB|]. split; [exact NM|]. split; [lra|exact HBM].
Qed.

(** X10: from 4 m/s on the scale factor is exactly 1.25, so that for a
    height that is not negative the stride returned is
    [0.414 * height * 1.25]. *)
Theorem stride_scale_saturates (h s : float) :
  (0 <=? h)%float = true -> (4 <=? s)%float = true ->
  stride_scale s = 1.25%float
  /\ snd (BPMEstimateSimple h s) = (0.414 * h * 1.25)%float.
Proof.
  intros Hh Hs.
  destruct (stride_scale_reals 4 s ltac:(vm_compute; reflexivity) Hs)
    as (_ & Sn & H1 & _ & H3).
  replace (stride_scale 4) with 1.25%float in H1 by (vm_compute; reflexivity).
  destruct (const_facts _ _ _ sf_1_25) as (Cn & _ & _ & Cp).
  rewrite Vf_1_25 in *.
  assert (stride_scale s = 1.25%float) as E.
  { symmetry. apply Vf_inj; auto; rewrite ?Vf_1_25; lra. }
  split; [exact E|].
  rewrite (stride_is_pre h s Hh). unfold stride_pre. rewrite E.
  destruct (const_facts _ _ _ sf_2_2) as (Tn & _ & _ & _).
  assert (nonnegative 4) as Fn.
  { apply (ltb_above 2.2 4 Tn). vm_compute. reflexivity. }
  assert (F2R 2.2 < F2R 4) as L1.
  { apply (proj1 (ltb_nonneg 2.2 4 Tn Fn)). vm_compute. reflexivity. }
  pose proof (leb_above _ _ Fn Hs) as Sn'.
  apply leb_nonneg in Hs; auto.
  replace (2.2 <? s)%float with true; [reflexivity|].
  symmetry. apply ltb_nonneg; auto. lra.
Qed.

Lemma stride_scale_saturates_witness :
  stride_scale 5 = 1.25%float
  /\ snd (BPMEstimateSimple 1.75 5) = (0.414 * 1.75 * 1.25)%float.
Proof. apply (stride_scale_saturates 1.75 5); vm_compute; reflexivity. Defined.

(** X12: for a height that is not negative the stride returned lies
    between [0.414 * height] and the cap [0.55 * height], whatever the
    speed. *)
Theorem stride_within_bounds (h s : float) :
  (0 <=? h)%float = true ->
  (0.414 * h <=? snd (BPMEstimateSimple h s))%float = true
  /\ (snd (BPMEstimateSimple h s) <=? 0.55 * h)%float = true.
Proof.
  intros Hh. rewrite (stride_is_pre h s Hh).
  destruct (zero_facts 0%float false ltac:(vm_compute; reflexivity)) as (Z1 & _ & _).
  destruct (stride_pre_facts h s (leb_above _ _ Z1 Hh)) as (NL & NB & NM & H1 & H2).
  split; now apply leb_true_nonneg.
Qed.

Lemma stride_within_bounds_witness :
  (0.414 * 1.75 <=? snd (BPMEstimateSimple 1.75 3))%float = true
  /\ (snd (BPMEstimateSimple 1.75 3) <=? 0.55 * 1.75)%float = true.
Proof. apply (stride_within_bounds 1.75 3); vm_compute; reflexivity. Defined.

(** X13: at a given height that is not negative the stride never
    decreases when the speed grows: for [s1 <= s2], [L h s1 <= L h s2]. *)
Theorem stride_monotone_in_speed (h s1 s2 : float) :
  (0 <=? h)%float = true -> (s1 <=? s2)%float = true ->
  (snd (BPMEstimateSimple h s1) <=? snd (BPMEstimateSimple h s2))%float = true.
Proof.
  intros Hh Hs. rewrite !(stride_is_pre h _ Hh).
  destruct (zero_facts 0%float false ltac:(vm_compute; reflexivity)) as (Z1 & _ & _).
  pose proof (leb_above _ _ Z1 Hh) as Nh.
  destruct (stride_pre_facts h s1 Nh) as (NL1 & NB & _ & H11 & _).
  destruct (stride_pre_facts h s2 Nh) as (NL2 & _ & _ & H21 & _).
  apply leb_true_nonneg; auto.
  unfold stride_pre in *.
  destruct (2.2 <? s1)%float eqn:E1; destruct (2.2 <? s2)%float eqn:E2.
  - destruct (stride_scale_reals s1 s2 E1 Hs) as (_ & _ & M1 & _).
    destruct (stride_scale_range s1 E1) as (Sn1 & Sf1 & _).
    destruct (stride_scale_range s2 E2) as (Sn2 & Sf2 & _).
    destruct (nonneg_cases _ NB) as [[FB _]|[IB _]].
    + now apply mul_left_mono.
    + destruct (stride_scale_range s1 E1) as (_ & _ & P1 & _).
      destruct (stride_scale_range s2 E2) as (_ & _ & P2 & _).
      pose proof (mul_inf_l _ _ IB Sn1 ltac:(lra)) as I1.
      pose proof (mul_inf_l _ _ IB Sn2 ltac:(lra)) as I2.
      unfold F2R. rewrite I1, I2. lra.
  - exfalso. destruct (const_facts _ _ _ sf_2_2) as (Cn & _ & _ & _).
    pose proof (ltb_above _ _ Cn E1) as N1. pose proof (leb_above _ _ N1 Hs) as N2.
    apply ltb_nonneg in E1; auto. apply leb_nonneg in Hs; auto.
    assert ((2.2 <? s2)%float = true) by (apply ltb_nonneg; auto; lra). congruence.
  - exact H21.
  - lra.
Qed.

Lemma stride_monotone_in_speed_witness :
  (snd (BPMEstimateSimple 1.75 2) <=? snd (BPMEstimateSimple 1.75 3))%float = true.
Proof. apply (stride_monotone_in_speed 1.75 2 3); vm_compute; reflexivity. Defined.

Lemma stride_pre_height_order (h1 h2 s : float) :
  (0 <=? h1)%float = true -> (h1 <=? h2)%float = true ->
  (0 <=? h2)%float = true
  /\ nonnegative (stride_pre h1 s) /\ nonnegative (stride_pre h2 s)
  /\ F2R (stride_pre h1 s) <= F2R (stride_pre h2 s).
Proof.
  intros H1 H12.
  destruct (zero_facts 0%float false ltac:(vm_compute; reflexivity)) as (Z1 & _ & _).
  pose proof (leb_above _ _ Z1 H1) as N1. pose proof (leb_above _ _ N1 H12) as N2.
  assert ((0 <=? h2)%float = true) as H2.
  { apply leb_nonneg in H1, H12; auto. apply leb_true_nonneg; auto. lra. }
  split; [exact H2|].
  apply leb_nonneg in H12; auto.
  destruct (mul_0_414_mono h1 h2 N1 N2 H12) as (B1 & B2 & B12).
  unfold stride_pre. destruct (2.2 <? s)%float eqn:Es.
  - destruct (stride_scale_range s Es) as (Sn & Sf & P & _).
    exact (mul_right_mono (stride_scale s) _ _ Sn Sf ltac:(lra) B1 B2 B12).
  - auto.
Qed.

(** X14: at a given speed the stride never decreases when the height
    grows: for [0 <= h1 <= h2], [L h1 s <= L h2 s]. *)
Theorem stride_monotone_in_height (h1 h2 s : float) :
  (0 <=? h1)%float = true -> (h1 <=? h2)%float = true ->
  (snd (BPMEstimateSimple h1 s) <=? snd (BPMEstimateSimple h2 s))%float = true.
Proof.
  intros H1 H12.
  destruct (stride_pre_height_order h1 h2 s H1 H12) as (H2 & N1 & N2 & L).
  rewrite (stride_is_pre h1 s H1), (stride_is_pre h2 s H2).
  now apply leb_true_nonneg.
Qed.

Lemma stride_monotone_in_height_witness :
  (snd (BPMEstimateSimple 1.6 3) <=? snd (BPMEstimateSimple 1.9 3))%float = true.
Proof. apply (stride_monotone_in_height 1.6 1.9 3); vm_compute; reflexivity. Defined.

Lemma bra_not_neg_zero m e l :
  binary_round_aux prec emax false m e l <> S754_zero true.
Proof.
  unfold binary_round_aux.
  destruct (shr_fexp prec emax m e l) as [r1 e1].
  destruct (shr_fexp prec emax _ e1 loc_Exact) as [r2 e2].
  destruct (shr_m r2); [discriminate| |discriminate].
  destruct (e2 <=? emax - prec)%Z; discriminate.
Qed.

Lemma SFmul_plus a b :
  sign_plus_sf a -> sign_plus_sf b -> nonneg_sf (SFmul prec emax a b) -> sign_plus_sf (SFmul prec emax a b).
Proof.
  intros Ha Hb [_ Hn].
  destruct a as [[]|[]| |[] ma ea]; try contradiction;
  destruct b as [[]|[]| |[] mb eb]; try contradiction; cbn [SFmul xorb] in *; try exact I.
  pose proof (bra_not_neg_zero (Z.pos (ma * mb)) (ea + eb) loc_Exact) as H.
  destruct (binary_round_aux prec emax false (Z.pos (ma * mb)) (ea + eb) loc_Exact)
    as [[]|[]| |[] m e]; try contradiction; exact I.
Qed.

Lemma mul_plus a b : sign_plus a -> sign_plus b -> nonnegative (a * b) -> sign_plus (a * b).
Proof.
  intros [_ Ha] [_ Hb] Hn. split; [exact Hn|].
  unfold nonnegative in Hn. rewrite mul_spec in *. now apply SFmul_plus.
Qed.

Lemma SFdiv_plus a b :
  sign_plus_sf a -> sign_plus_sf b -> nonneg_sf (SFdiv prec emax a b) -> sign_plus_sf (SFdiv prec emax a b).
Proof.
  intros Ha Hb [_ Hn].
  destruct a as [[]|[]| |[] ma ea]; try contradiction;
  destruct b as [[]|[]| |[] mb eb]; try contradiction; cbn [SFdiv xorb] in *; try exact I.
  destruct (SFdiv_core_binary prec emax (Z.pos ma) ea (Z.pos mb) eb) as [[q e'] l].
  pose proof (bra_not_neg_zero q e' l) as H.
  destruct (binary_round_aux prec emax false q e' l)
    as [[]|[]| |[] m e]; try contradiction; exact I.
Qed.

Lemma positive_plus f : nonnegative f -> 0 < F2R f -> sign_plus f.
Proof.
  intros Hn Hp. split; [exact Hn|]. destruct Hn as [_ Hs]. unfold F2R in Hp.
  destruct (Prim2SF f) as [s|[]| |[] m e]; try contradiction; try exact I.
  cbn [SF2R] in Hp. lra.
Qed.

(** Division of a positive finite number is antitone in the divisor. *)
Lemma div_antitone s x y :
  nonnegative s -> finite s -> 0 < F2R s -> sign_plus x -> sign_plus y -> F2R x <= F2R y ->
  sign_plus (s / x) /\ sign_plus (s / y) /\ F2R (s / y) <= F2R (s / x).
Proof.
  intros Sn Sf Sp Px Py Hxy.
  pose proof (positive_plus s Sn Sp) as [_ Ps].
  assert (forall z, sign_plus z ->
            nonnegative (s / z)
            /\ (F2R z = 0 -> F2R (s / z) = bpow 1024)
            /\ (is_inf z -> F2R (s / z) = 0)) as Hz.
  { intros z [Zn Zp]. unfold nonnegative, is_inf, F2R. rewrite div_spec. unfold SF64div.
    pose proof (nonneg_cases z Zn) as Hc. destruct Zn as [Zv Zs].
    unfold finite, is_inf, F2R in *. destruct Sn as [Sv Ss].
    destruct (Prim2SF s) as [ss|[]| |[] ms es]; try contradiction;
      try (cbn [SF2R] in Sp; lra).
    destruct (Prim2SF z) as [[]|[]| |[] mz ez] eqn:Ez; try contradiction.
    - cbn [SFdiv xorb SF2R]. split; [now split|]. split; [intros _; lra|discriminate].
    - cbn [SFdiv xorb SF2R]. split; [now split|]. split; [|reflexivity].
      intros E. pose proof (bpow_gt_0 1024). rewrite Rmult_1_l in E. lra.
    - assert (Rounds (SF2R (S754_finite false ms es) / SF2R (S754_finite false mz ez))
                (SFdiv prec emax (S754_finite false ms es) (S754_finite false mz ez))) as R.
      { apply SFdiv_Rounds; try (now split); try exact I.
        cbn [valid_binary] in Zv. pose proof (finite_value_bounds _ _ Zv). cbn [SF2R]. lra. }
      destruct R as (_ & Rn & _). split; [exact Rn|]. split; [|discriminate].
      cbn [valid_binary] in Zv. pose proof (finite_value_bounds _ _ Zv). cbn [SF2R]. lra. }
  assert (forall z, sign_plus z -> sign_plus (s / z)) as Hp.
  { intros z Pz. destruct (Hz z Pz) as (Nz & _). split; [exact Nz|].
    unfold nonnegative in Nz. rewrite div_spec in *. unfold SF64div in *. destruct Pz as [_ Pz].
    now apply SFdiv_plus. }
  split; [now apply Hp|]. split; [now apply Hp|].
  destruct (Hz x Px) as (Nx & Zx & Ix). destruct (Hz y Py) as (Ny & Zy & Iy).
  destruct Px as [Xn _], Py as [Yn _].
  destruct (nonneg_cases y Yn) as [[Fy Hy]|[Iy' _]].
  - destruct (Rle_lt_dec (F2R x) 0) as [Hx0|Hx0].
    + rewrite Zx by (pose proof (nonneg_Vf x Xn); lra). now apply nonneg_Vf.
    + destruct (nonneg_cases x Xn) as [[Fx Hx]|[_ Hx]]; [|lra].
      apply (Rounds_mono (F2R s / F2R y) (F2R s / F2R x)).
      * apply div_Rounds; auto. lra.
      * now apply div_Rounds.
      * apply Rmult_le_compat_l; [lra|]. apply Rinv_le_contravar; lra.
  - rewrite (Iy Iy'). now apply nonneg_Vf.
Qed.

Lemma sf_60 : Prim2SF 60 = S754_finite false 8444249301319680 (-47).
Proof. vm_compute. reflexivity. Qed.

Lemma stride_pre_plus h s : nonnegative h -> 0 < F2R h -> sign_plus (stride_pre h s).
Proof.
  intros Hh Hp.
  destruct (stride_pre_facts h s Hh) as (NL & NB & _).
  destruct (const_facts _ _ _ sf_0_414) as (An & _ & _ & Ap).
  pose proof (mul_plus 0.414 h (positive_plus _ An Ap) (positive_plus _ Hh Hp) NB) as PB.
  unfold stride_pre in *. destruct (2.2 <? s)%float eqn:Es; [|exact PB].
  destruct (stride_scale_range s Es) as (Sn & _ & S1 & _).
  apply mul_plus; auto. apply positive_plus; auto. lra.
Qed.

(** X15: at a given finite speed above 0 the cadence never increases
    when the height grows: for [0 < h1 <= h2], [bpm h2 s <= bpm h1 s]
    (both are numbers, not NaN). *)
Theorem cadence_antitone_in_height (h1 h2 s : float) :
  (0 <? h1)%float = true -> (h1 <=? h2)%float = true ->
  (0 <? s)%float = true -> (s <? infinity)%float = true ->
  (fst (BPMEstimateSimple h2 s) <=? fst (BPMEstimateSimple h1 s))%float = true.
Proof.
  intros H1 H12 Hs Hsf.
  destruct (zero_facts 0%float false ltac:(vm_compute; reflexivity)) as (Z1 & _ & Z3).
  pose proof (ltb_above _ _ Z1 H1) as N1. pose proof (leb_above _ _ N1 H12) as N2.
  pose proof (ltb_above _ _ Z1 Hs) as Sn.
  assert (nonnegative infinity) as In by (apply is_inf_nonneg; vm_compute; reflexivity).
  apply ltb_nonneg in H1, Hs, Hsf; auto. rewrite Z3 in *.
  assert (F2R h1 <= F2R h2) as V12 by (apply leb_nonneg; auto).
  assert ((0 <=? h1)%float = true) as L1 by (apply leb_true_nonneg; auto; lra).
  assert ((0 <=? h2)%float = true) as L2 by (apply leb_true_nonneg; auto; lra).
  assert (finite s) as Sf.
  { destruct (nonneg_cases s Sn) as [[F _]|[_ E]]; [exact F|].
    pose proof (nonneg_Vf infinity In). lra. }
  destruct (stride_pre_height_order h1 h2 s L1 H12) as (_ & _ & _ & HL).
  assert (forall h, BPMEstimateSimple h s
            = ((s / snd (BPMEstimateSimple h s) * 60)%float, snd (BPMEstimateSimple h s)))
    as E by reflexivity.
  rewrite (E h1), (E h2). cbn [fst].
  rewrite (stride_is_pre h1 s L1), (stride_is_pre h2 s L2).
  pose proof (stride_pre_plus h1 s N1 H1) as P1.
  pose proof (stride_pre_plus h2 s N2 ltac:(lra)) as P2.
  destruct (div_antitone s _ _ Sn Sf Hs P1 P2 HL) as ((D1 & _) & (D2 & _) & D12).
  destruct (const_facts _ _ _ sf_60) as (Cn & Cf & _ & Cp).
  destruct (mul_right_mono 60 _ _ Cn Cf Cp D2 D1 D12) as (M2 & M1 & M21).
  now apply leb_true_nonneg.
Qed.

Lemma cadence_antitone_in_height_witness :
  (fst (BPMEstimateSimple 1.9 3) <=? fst (BPMEstimateSimple 1.6 3))%float = true.
Proof. apply (cadence_antitone_in_height 1.6 1.9 3); vm_compute; reflexivity. Defined.

(** *** Negative heights

    The operations of the stride are symmetric in the sign: what they
    give at [- h] is the opposite of what they give at [h]. *)

Lemma bra_opp s m e l :
  binary_round_aux prec emax (negb s) m e l = SFopp (binary_round_aux prec emax s m e l).
Proof.
  unfold binary_round_aux.
  destruct (shr_fexp prec emax m e l) as [r1 e1].
  destruct (shr_fexp prec emax _ e1 loc_Exact) as [r2 e2].
  destruct (shr_m r2); [reflexivity| |reflexivity].
  destruct (e2 <=? emax - prec)%Z; reflexivity.
Qed.

Lemma SFmul_opp_r a b :
  SFmul prec emax a (SFopp b) = SFopp (SFmul prec emax a b).
Proof.
  destruct a as [sa|sa| |sa ma ea]; destruct b as [sb|sb| |sb mb eb];
    cbn [SFmul SFopp]; rewrite <- ?negb_xorb_r; try reflexivity.
  now rewrite bra_opp.
Qed.

Lemma SFmul_opp_l a b :
  SFmul prec emax (SFopp a) b = SFopp (SFmul prec emax a b).
Proof.
  destruct a as [sa|sa| |sa ma ea]; destruct b as [sb|sb| |sb mb eb];
    cbn [SFmul SFopp]; rewrite <- ?negb_xorb_l; try reflexivity.
  now rewrite bra_opp.
Qed.

Lemma SFopp_involutive a : SFopp (SFopp a) = a.
Proof. destruct a; cbn [SFopp]; rewrite ?negb_involutive; reflexivity. Qed.

Lemma SFcompare_opp a b :
  SFcompare (SFopp a) (SFopp b) = SFcompare b a.
Proof.
  rewrite (SFcompare_antisym a b).
  destruct a as [[]|[]| |[] ma ea]; destruct b as [[]|[]| |[] mb eb];
    cbn [SFcompare SFopp negb CompOpp]; try reflexivity;
    destruct (ea ?= eb)%Z; cbn [CompOpp]; rewrite ?CompOpp_involutive; reflexivity.
Qed.

Lemma plus_sf_inj oa ob :
  nonneg_sf oa -> nonneg_sf ob -> sign_plus_sf oa -> sign_plus_sf ob ->
  SF2R oa = SF2R ob -> oa = ob.
Proof.
  intros Na Nb Pa Pb E.
  destruct (Rle_lt_dec (SF2R oa) 0) as [H0|H0]; [|now apply nonneg_sf_inj].
  destruct Na as [Hva _], Nb as [Hvb _]. pose proof (bpow_gt_0 1024).
  destruct oa as [[]|[]| |[] ma ea]; try contradiction;
  destruct ob as [[]|[]| |[] mb eb]; try contradiction;
    cbn [SF2R valid_binary] in *;
    try pose proof (finite_value_bounds _ _ Hva);
    try pose proof (finite_value_bounds _ _ Hvb); try lra; reflexivity.
Qed.

Lemma negative_height h :
  (h <? 0)%float = true ->
  nonnegative (- h) /\ 0 < F2R (- h) /\ Prim2SF h = SFopp (Prim2SF (- h)).
Proof.
  intros H. rewrite ltb_spec in H. change (Prim2SF 0) with (S754_zero false) in H.
  unfold nonnegative, nonneg_sf, F2R. rewrite opp_spec, SFopp_involutive.
  pose proof (Prim2SF_valid h) as V. pose proof (bpow_gt_0 1024).
  unfold SFltb in H.
  destruct (Prim2SF h) as [sh|[]| |[] m e]; cbn [SFcompare] in H; try discriminate;
    cbn [SFopp negb SF2R valid_binary] in *.
  - split; [split; [reflexivity|exact I]|]. split; [lra|reflexivity].
  - split; [split; [exact V|exact I]|]. split; [|reflexivity].
    pose proof (finite_value_bounds _ _ V). lra.
Qed.

Lemma stride_negative h s :
  (h <? 0)%float = true -> snd (BPMEstimateSimple h s) = (0.55 * h)%float.
Proof.
  intros H. destruct (negative_height h H) as (Nh & Ph & Eh).
  assert (forall c, Prim2SF (c * h) = SFopp (Prim2SF (c * - h))) as Hc.
  { intros c. rewrite !mul_spec, Eh. apply SFmul_opp_r. }
  assert (Prim2SF (stride_pre h s) = SFopp (Prim2SF (stride_pre (- h) s))) as Hp.
  { unfold stride_pre. destruct (2.2 <? s)%float; [|apply Hc].
    rewrite mul_spec, Hc. unfold SF64mul. rewrite SFmul_opp_l.
    now rewrite (mul_spec (0.414 * - h)). }
  destruct (stride_pre_facts (- h) s Nh) as (NL & _ & NM & _ & HLM).
  pose proof (stride_pre_plus (- h) s Nh Ph) as [_ PL].
  destruct (const_facts _ _ _ sf_0_55) as (Cn & _ & _ & Cp).
  pose proof (mul_plus 0.55 (- h) (positive_plus _ Cn Cp) (positive_plus _ Nh Ph) NM) as [_ PM].
  assert (snd (BPMEstimateSimple h s)
          = if (0.55 * h <? stride_pre h s)%float then (0.55 * h)%float else stride_pre h s) as E0.
  { unfold BPMEstimateSimple, stride_pre, stride_scale. cbv zeta. cbn [snd].
    destruct (2.2 <? s)%float; reflexivity. }
  rewrite E0.
  destruct (0.55 * h <? stride_pre h s)%float eqn:E; [reflexivity|].
  apply Prim2SF_inj. rewrite Hp, Hc. f_equal.
  rewrite ltb_spec, Hp, Hc in E. unfold SFltb in E. rewrite SFcompare_opp in E.
  fold (SFltb (Prim2SF (stride_pre (- h) s)) (Prim2SF (0.55 * - h))) in E.
  apply plus_sf_inj; auto.
  apply Rle_antisym; [exact HLM|].
  destruct (Rle_lt_dec (SF2R (Prim2SF (0.55 * - h))) (SF2R (Prim2SF (stride_pre (- h) s))))
    as [|Hlt]; [assumption|].
  apply SFltb_V in Hlt; auto. congruence.
Qed.

(** X19: a negative height is not refused: for every speed (a NaN
    included) the stride returned is the cap [0.55 * height] of that
    height, and the cadence is the speed divided by it, times 60. *)
Theorem BPMEstimateSimple_negative_height (h s : float) :
  (h <? 0)%float = true ->
  BPMEstimateSimple h s = ((s / (0.55 * h) * 60)%float, (0.55 * h)%float).
Proof.
  intros H.
  assert (BPMEstimateSimple h s
          = ((s / snd (BPMEstimateSimple h s) * 60)%float, snd (BPMEstimateSimple h s)))
    as E by reflexivity.
  rewrite E, (stride_negative h s H). reflexivity.
Qed.

Lemma BPMEstimateSimple_negative_height_witness :
  (snd (BPMEstimateSimple (-1.75) 3) <? 0)%float = true
  /\ BPMEstimateSimple (-1.75) 3
     = ((3 / (0.55 * -1.75) * 60)%float, (0.55 * -1.75)%float).
Proof.
  split; [vm_compute; reflexivity|].
  apply (BPMEstimateSimple_negative_height (-1.75) 3). vm_compute. reflexivity.
Defined.

End Rounding.
